(** * react-native-image-view: the gesture arithmetic of [src/index.js]

    A shallow embedding of the zoom, pan, swipe and dismiss logic of the
    [ImageView] component, and the properties of it that hold on the code.

    Numbers.  A JavaScript number is modelled as an extended real: a finite
    real, one of the two infinities, or NaN.  Arithmetic is exact (binary64
    rounding is abstracted away) and zero carries no sign, so a positive
    number divided by zero is [PInf].  Division by zero, the propagation of
    NaN and the comparisons that are false on NaN are kept as the language
    has them.

    Rounding.  What is proved on exact numbers carries to the code when it
    rests on comparisons, on the order of the operations and on the
    monotonicity of correctly rounded arithmetic; an equation between two
    different computations does not.  Where a property depends on rounding,
    the statement says so, and module [F64] evaluates the function at hand
    on binary64 itself. *)

From Stdlib Require Import Reals Lra Lia List ZArith Bool.
From Stdlib Require Floats.
Import ListNotations.

Local Open Scope R_scope.

(* ================================================================== *)
(** ** JavaScript numbers *)
(* ================================================================== *)

Module Num.

Inductive number : Type :=
| NaN
| PInf
| NInf
| Fin (r : R).

Definition Rltb (a b : R) : bool := if Rlt_dec a b then true else false.
Definition Reqb (a b : R) : bool := if Req_dec_T a b then true else false.

(** The sign of a finite real, as the infinities need it. *)
Definition sgn (r : R) : comparison :=
  if Rlt_dec 0 r then Gt else if Rlt_dec r 0 then Lt else Eq.

Definition neg (a : number) : number :=
  match a with
  | NaN => NaN
  | PInf => NInf
  | NInf => PInf
  | Fin r => Fin (- r)
  end.

(** [a + b], [a * b] and [a / b] on finite numbers are the sum, the
    product and the quotient of the reals: the result is not rounded to
    binary64. *)
Definition add (a b : number) : number :=
  match a, b with
  | NaN, _ | _, NaN => NaN
  | PInf, NInf | NInf, PInf => NaN
  | PInf, _ | _, PInf => PInf
  | NInf, _ | _, NInf => NInf
  | Fin x, Fin y => Fin (x + y)
  end.

Definition sub (a b : number) : number := add a (neg b).

(** An infinity scaled by a finite real. *)
Definition scale_inf (inf : number) (r : R) : number :=
  match sgn r with
  | Gt => inf
  | Lt => neg inf
  | Eq => NaN
  end.

Definition mul (a b : number) : number :=
  match a, b with
  | NaN, _ | _, NaN => NaN
  | PInf, PInf | NInf, NInf => PInf
  | PInf, NInf | NInf, PInf => NInf
  | PInf, Fin r | Fin r, PInf => scale_inf PInf r
  | NInf, Fin r | Fin r, NInf => scale_inf NInf r
  | Fin x, Fin y => Fin (x * y)
  end.

Definition div (a b : number) : number :=
  match a, b with
  | NaN, _ | _, NaN => NaN
  | (PInf | NInf), (PInf | NInf) => NaN
  | PInf, Fin r => if Rlt_dec r 0 then NInf else PInf
  | NInf, Fin r => if Rlt_dec r 0 then PInf else NInf
  | Fin _, (PInf | NInf) => Fin 0
  | Fin x, Fin y =>
      if Req_dec_T y 0 then scale_inf PInf x else Fin (x / y)
  end.

(** [Math.abs]. *)
Definition abs (a : number) : number :=
  match a with
  | NaN => NaN
  | PInf | NInf => PInf
  | Fin r => Fin (Rabs r)
  end.

(** [Math.sqrt]. *)
Definition sqrt (a : number) : number :=
  match a with
  | NaN | NInf => NaN
  | PInf => PInf
  | Fin r => if Rlt_dec r 0 then NaN else Fin (R_sqrt.sqrt r)
  end.

(** [Math.pow(a, 2)]. *)
Definition pow2 (a : number) : number := mul a a.

(** [a < b]; false as soon as one side is NaN. *)
Definition lt (a b : number) : bool :=
  match a, b with
  | NaN, _ | _, NaN => false
  | _, NInf => false
  | PInf, _ => false
  | NInf, _ => true
  | _, PInf => true
  | Fin x, Fin y => Rltb x y
  end.

(** [a === b] on numbers; NaN is not equal to itself. *)
Definition strict_eq (a b : number) : bool :=
  match a, b with
  | PInf, PInf | NInf, NInf => true
  | Fin x, Fin y => Reqb x y
  | _, _ => false
  end.

Definition gt (a b : number) : bool := lt b a.
Definition le (a b : number) : bool := lt a b || strict_eq a b.
Definition ge (a b : number) : bool := le b a.

(** [a !== b]. *)
Definition strict_ne (a b : number) : bool := negb (strict_eq a b).

(** [Number.isNaN]. *)
Definition isNaN (a : number) : bool :=
  match a with NaN => true | _ => false end.

(** The truth value of a number in a condition: 0 and NaN are false. *)
Definition truthy (a : number) : bool :=
  match a with
  | NaN => false
  | Fin r => negb (Reqb r 0)
  | _ => true
  end.

(** [Math.round]: the nearest integer, halves going up. *)
Definition round (a : number) : number :=
  match a with
  | Fin r => Fin (IZR (Zfloor (r + / 2)))
  | _ => a
  end.

(** The integer part of a real, towards zero. *)
Definition Rtrunc (r : R) : Z := if Rlt_dec r 0 then Zceil r else Zfloor r.

(** [a % b]: the remainder takes the sign of the dividend. *)
Definition rem (a b : number) : number :=
  match a, b with
  | Fin x, Fin y =>
      if Req_dec_T y 0 then NaN else Fin (x - y * IZR (Rtrunc (x / y)))
  | Fin x, (PInf | NInf) => Fin x
  | _, _ => NaN
  end.

(** A value read where a number is expected: [undefined] converts to NaN. *)
Definition to_number (v : option number) : number :=
  match v with
  | Some n => n
  | None => NaN
  end.

(** A parameter with a default value: the default replaces [undefined]. *)
Definition default_arg (v : option number) (d : number) : number :=
  match v with
  | Some n => n
  | None => d
  end.

(** An array index: a number addresses an element only when it is a
    non-negative integer. *)
Definition to_index (i : number) : option nat :=
  match i with
  | Fin r =>
      let z := Zfloor r in
      if Req_dec_T (IZR z) r then
        if (0 <=? z)%Z then Some (Z.to_nat z) else None
      else None
  | _ => None
  end.

(** [arr[i]]: [None] stands for [undefined]. *)
Definition get {A : Type} (arr : list A) (i : number) : option A :=
  match to_index i with
  | Some n => nth_error arr n
  | None => None
  end.

(** The smaller of two numbers, as the claims speak of it. *)
Definition min (a b : number) : number := if le a b then a else b.

End Num.

Import Num.

Declare Scope num_scope.
Delimit Scope num_scope with num.
Bind Scope num_scope with number.
Infix "+" := add : num_scope.
Infix "-" := sub : num_scope.
Infix "*" := mul : num_scope.
Infix "/" := div : num_scope.
Infix "<?" := lt : num_scope.
Infix "<=?" := le : num_scope.
Infix ">?" := gt : num_scope.
Infix ">=?" := ge : num_scope.
Infix "===" := strict_eq (at level 70, no associativity) : num_scope.
Infix "!==" := strict_ne (at level 70, no associativity) : num_scope.
Coercion Fin : R >-> number.

(* ================================================================== *)
(** ** Data of the component *)
(* ================================================================== *)

(** [TouchType]. *)
Record TouchType : Type := mkTouch {
  pageX : number;
  pageY : number;
}.

(** [event.nativeEvent] of a gesture event. *)
Record NativeEvent : Type := mkNativeEvent {
  touches : list TouchType;
}.

(** [event.nativeEvent] of a scroll event; [contentOffset] may be missing,
    and only its [x] is read. *)
Record ScrollEvent : Type := mkScrollEvent {
  contentOffset : option number;
}.

(** [ImageType]; a size that is not known yet is [undefined]. *)
Record ImageType : Type := mkImage {
  width : option number;
  height : option number;
}.

(** [TranslateType]; its fields [x] and [y] are [tx] and [ty] here. *)
Record TranslateType : Type := mkTranslate {
  tx : number;
  ty : number;
}.

(** [GestureState]. *)
Record GestureState : Type := mkGesture {
  dx : number;
  dy : number;
  vx : number;
  vy : number;
}.

(** An entry of [this.imageInitialParams]. *)
Record InitialParams : Type := mkParams {
  scale : number;
  translate : TranslateType;
}.

Inductive Axis : Type := AxisX | AxisY.

(** A call either returns or throws a [TypeError] (a property read on
    [undefined]). *)
Inductive result (A : Type) : Type :=
| Ok (a : A)
| TypeError.

Arguments Ok {A} a.
Arguments TypeError {A}.

Definition bind {A B : Type} (m : result A) (k : A -> result B) : result B :=
  match m with
  | Ok a => k a
  | TypeError => TypeError
  end.

Notation "x <- m ;; k" := (bind m (fun x => k))
  (at level 61, m at next level, right associativity).

(** Reading a property of [v]: a [TypeError] when [v] is [undefined]. *)
Definition defined {A : Type} (v : option A) : result A :=
  match v with
  | Some a => Ok a
  | None => TypeError
  end.

(** *** Constants *)

Definition IMAGE_SPEED_FOR_CLOSE : number := Fin (11 / 10).
Definition SCALE_MAXIMUM : number := Fin 5.
Definition HEADER_HEIGHT : number := Fin 60.
Definition SCALE_EPSILON : number := Fin (1 / 100).
Definition SCALE_MULTIPLIER : number := Fin (12 / 10).
Definition SCALE_MAX_MULTIPLIER : number := Fin 3.
Definition FREEZE_SCROLL_DISTANCE : number := Fin 15.
Definition BACKGROUND_OPACITY_MULTIPLIER : number := Fin (3 / 1000).

(* ================================================================== *)
(** ** The functions of the module *)
(* ================================================================== *)

Definition getScale (currentDistance initialDistance : number) : number :=
  (currentDistance / initialDistance * SCALE_MULTIPLIER)%num.

Definition pow2abs (a b : number) : number := pow2 (abs (a - b)%num).

(** [const [a, b] = touches]: a missing element is [undefined]. *)
Definition getDistance (touches : list TouchType) : number :=
  match touches with
  | a :: b :: _ =>
      Num.sqrt (pow2abs (pageX a) (pageX b) + pow2abs (pageY a) (pageY b))%num
  | _ => Fin 0
  end.

Definition scalesAreEqual (scaleA scaleB : number) : bool :=
  (abs (scaleA - scaleB) <? SCALE_EPSILON)%num.

(** [Dimensions.get('window')]: the size of the window, two finite reals
    supplied by the host framework. *)
Record Dimensions : Type := mkWindow {
  window_width : R;
  window_height : R;
}.

Section Screen.

Variable window : Dimensions.

Definition screenWidth : number := Fin (window_width window).
Definition screenHeight : number := Fin (window_height window).

Definition calculateInitialScale (imageWidth imageHeight : option number)
  : number :=
  let imageWidth := default_arg imageWidth (Fin 0) in
  let imageHeight := default_arg imageHeight (Fin 0) in
  let screenRatio := (screenHeight / screenWidth)%num in
  let imageRatio := (imageHeight / imageWidth)%num in
  if (imageWidth >? screenWidth)%num || (imageHeight >? screenHeight)%num then
    if (screenRatio >? imageRatio)%num then (screenWidth / imageWidth)%num
    else (screenHeight / imageHeight)%num
  else Fin 1.

Definition calculateInitalTranslate (imageWidth imageHeight : option number)
  : TranslateType :=
  let imageWidth := default_arg imageWidth (Fin 0) in
  let imageHeight := default_arg imageHeight (Fin 0) in
  let getTranslate (axis : Axis) : number :=
    let imageSize := match axis with AxisX => imageWidth | AxisY => imageHeight end in
    let screenSize := match axis with AxisX => screenWidth | AxisY => screenHeight end in
    if (imageWidth >=? imageHeight)%num then ((screenSize - imageSize) / Fin 2)%num
    else (screenSize / Fin 2 - imageSize / Fin 2)%num in
  {| tx := getTranslate AxisX; ty := getTranslate AxisY |}.

Definition getInitalParams (image : ImageType) : InitialParams :=
  {| scale := calculateInitialScale (width image) (height image);
     translate := calculateInitalTranslate (width image) (height image) |}.

(** *** The component instance

    [this.state] is the record [State]; the other fields of [Component] are
    the instance fields set by the constructor.  [onCloseIsFunction] is
    [typeof this.props.onClose === 'function'] and [onCloseCalls] counts the
    calls of that callback. An [Animated.Value] is modelled by its [_value],
    and an animation started by a handler by its end: [start()] stores
    [toValue], and a completion callback runs once the handler is done. *)

Record State : Type := mkState {
  images : list ImageType;
  isVisible : bool;
  imageIndex : number;
  imageScale : number;
  imageTranslate : TranslateType;
  scrollEnabled : bool;
  panelsVisible : bool;
}.

Record Component : Type := mkComponent {
  onCloseIsFunction : bool;
  onCloseCalls : nat;
  imageInitialParams : list InitialParams;
  state : State;
  isScrolling : bool;
  footerHeight : number;
  initialTouches : list TouchType;
  currentTouchesNum : nat;
  doubleTapTimer : bool;
  modalBackgroundOpacity : number;
  headerTranslateValue : TranslateType;
  footerTranslateValue : TranslateType;
  imageScaleValue : number;
  imageTranslateValue : TranslateType;
}.

Definition set_x (v : number) (t : TranslateType) : TranslateType :=
  {| tx := v; ty := ty t |}.
Definition set_y (v : number) (t : TranslateType) : TranslateType :=
  {| tx := tx t; ty := v |}.

(** [this.setState({...})], one field at a time.  No handler reads a field
    of the state after it has set it, so the merge is applied at once. *)
Definition set_isVisible (v : bool) (s : State) : State :=
  mkState (images s) v (imageIndex s) (imageScale s) (imageTranslate s)
          (scrollEnabled s) (panelsVisible s).
Definition set_imageIndex (v : number) (s : State) : State :=
  mkState (images s) (isVisible s) v (imageScale s) (imageTranslate s)
          (scrollEnabled s) (panelsVisible s).
Definition set_imageScale (v : number) (s : State) : State :=
  mkState (images s) (isVisible s) (imageIndex s) v (imageTranslate s)
          (scrollEnabled s) (panelsVisible s).
Definition set_imageTranslate (v : TranslateType) (s : State) : State :=
  mkState (images s) (isVisible s) (imageIndex s) (imageScale s) v
          (scrollEnabled s) (panelsVisible s).
Definition set_scrollEnabled (v : bool) (s : State) : State :=
  mkState (images s) (isVisible s) (imageIndex s) (imageScale s)
          (imageTranslate s) v (panelsVisible s).
Definition set_panelsVisible (v : bool) (s : State) : State :=
  mkState (images s) (isVisible s) (imageIndex s) (imageScale s)
          (imageTranslate s) (scrollEnabled s) v.

Definition setState (f : State -> State) (c : Component) : Component :=
  mkComponent (onCloseIsFunction c) (onCloseCalls c) (imageInitialParams c)
    (f (state c)) (isScrolling c) (footerHeight c) (initialTouches c)
    (currentTouchesNum c) (doubleTapTimer c) (modalBackgroundOpacity c)
    (headerTranslateValue c) (footerTranslateValue c) (imageScaleValue c)
    (imageTranslateValue c).
Definition set_onCloseCalls (v : nat) (c : Component) : Component :=
  mkComponent (onCloseIsFunction c) v (imageInitialParams c)
    (state c) (isScrolling c) (footerHeight c) (initialTouches c)
    (currentTouchesNum c) (doubleTapTimer c) (modalBackgroundOpacity c)
    (headerTranslateValue c) (footerTranslateValue c) (imageScaleValue c)
    (imageTranslateValue c).
Definition set_isScrolling (v : bool) (c : Component) : Component :=
  mkComponent (onCloseIsFunction c) (onCloseCalls c) (imageInitialParams c)
    (state c) v (footerHeight c) (initialTouches c)
    (currentTouchesNum c) (doubleTapTimer c) (modalBackgroundOpacity c)
    (headerTranslateValue c) (footerTranslateValue c) (imageScaleValue c)
    (imageTranslateValue c).
Definition set_initialTouches (v : list TouchType) (c : Component)
  : Component :=
  mkComponent (onCloseIsFunction c) (onCloseCalls c) (imageInitialParams c)
    (state c) (isScrolling c) (footerHeight c) v
    (currentTouchesNum c) (doubleTapTimer c) (modalBackgroundOpacity c)
    (headerTranslateValue c) (footerTranslateValue c) (imageScaleValue c)
    (imageTranslateValue c).
Definition set_currentTouchesNum (v : nat) (c : Component) : Component :=
  mkComponent (onCloseIsFunction c) (onCloseCalls c) (imageInitialParams c)
    (state c) (isScrolling c) (footerHeight c) (initialTouches c)
    v (doubleTapTimer c) (modalBackgroundOpacity c)
    (headerTranslateValue c) (footerTranslateValue c) (imageScaleValue c)
    (imageTranslateValue c).
Definition set_doubleTapTimer (v : bool) (c : Component) : Component :=
  mkComponent (onCloseIsFunction c) (onCloseCalls c) (imageInitialParams c)
    (state c) (isScrolling c) (footerHeight c) (initialTouches c)
    (currentTouchesNum c) v (modalBackgroundOpacity c)
    (headerTranslateValue c) (footerTranslateValue c) (imageScaleValue c)
    (imageTranslateValue c).
Definition set_modalBackgroundOpacity (v : number) (c : Component)
  : Component :=
  mkComponent (onCloseIsFunction c) (onCloseCalls c) (imageInitialParams c)
    (state c) (isScrolling c) (footerHeight c) (initialTouches c)
    (currentTouchesNum c) (doubleTapTimer c) v
    (headerTranslateValue c) (footerTranslateValue c) (imageScaleValue c)
    (imageTranslateValue c).
Definition set_headerTranslateValue (v : TranslateType) (c : Component)
  : Component :=
  mkComponent (onCloseIsFunction c) (onCloseCalls c) (imageInitialParams c)
    (state c) (isScrolling c) (footerHeight c) (initialTouches c)
    (currentTouchesNum c) (doubleTapTimer c) (modalBackgroundOpacity c)
    v (footerTranslateValue c) (imageScaleValue c)
    (imageTranslateValue c).
Definition set_footerTranslateValue (v : TranslateType) (c : Component)
  : Component :=
  mkComponent (onCloseIsFunction c) (onCloseCalls c) (imageInitialParams c)
    (state c) (isScrolling c) (footerHeight c) (initialTouches c)
    (currentTouchesNum c) (doubleTapTimer c) (modalBackgroundOpacity c)
    (headerTranslateValue c) v (imageScaleValue c)
    (imageTranslateValue c).
Definition set_imageScaleValue (v : number) (c : Component) : Component :=
  mkComponent (onCloseIsFunction c) (onCloseCalls c) (imageInitialParams c)
    (state c) (isScrolling c) (footerHeight c) (initialTouches c)
    (currentTouchesNum c) (doubleTapTimer c) (modalBackgroundOpacity c)
    (headerTranslateValue c) (footerTranslateValue c) v
    (imageTranslateValue c).
Definition set_imageTranslateValue (v : TranslateType) (c : Component)
  : Component :=
  mkComponent (onCloseIsFunction c) (onCloseCalls c) (imageInitialParams c)
    (state c) (isScrolling c) (footerHeight c) (initialTouches c)
    (currentTouchesNum c) (doubleTapTimer c) (modalBackgroundOpacity c)
    (headerTranslateValue c) (footerTranslateValue c) (imageScaleValue c)
    v.

(** *** Methods *)

(** [index !== undefined ? index : this.state.imageIndex]. *)
Definition indexOrCurrent (index : option number) (this : Component)
  : number :=
  match index with
  | Some i => i
  | None => imageIndex (state this)
  end.

Definition getInitialScale (index : option number) (this : Component)
  : result number :=
  let imageIndex := indexOrCurrent index this in
  p <- defined (get (imageInitialParams this) imageIndex) ;;
  Ok (scale p).

Definition getInitialTranslate (index : option number) (this : Component)
  : result TranslateType :=
  let imageIndex := indexOrCurrent index this in
  p <- defined (get (imageInitialParams this) imageIndex) ;;
  Ok (translate p).

(** The constructor: [images], [imageIndex], [isVisible] and [onClose] are
    the props.  It throws when [imageIndex] addresses no image. *)
Definition constructor (images : list ImageType) (index : number)
  (visible onClose : bool) : result Component :=
  let this :=
    {| onCloseIsFunction := onClose;
       onCloseCalls := 0;
       imageInitialParams := map getInitalParams images;
       state := {| images := images;
                   isVisible := visible;
                   imageIndex := index;
                   imageScale := Fin 1;
                   imageTranslate := {| tx := Fin 0; ty := Fin 0 |};
                   scrollEnabled := true;
                   panelsVisible := true |};
       isScrolling := false;
       footerHeight := Fin 0;
       initialTouches := [];
       currentTouchesNum := 0;
       doubleTapTimer := false;
       modalBackgroundOpacity := Fin 0;
       headerTranslateValue := {| tx := Fin 0; ty := Fin 0 |};
       footerTranslateValue := {| tx := Fin 0; ty := Fin 0 |};
       imageScaleValue := Fin 0;
       imageTranslateValue := {| tx := Fin 0; ty := Fin 0 |} |} in
  s <- getInitialScale None this ;;
  let this := set_imageScaleValue s this in
  t <- getInitialTranslate None this ;;
  Ok (set_imageTranslateValue t this).

(** [onNextImagesReceived(images, imageIndex = 0)]. *)
Definition onNextImagesReceived (images : list ImageType)
  (index : option number) (this : Component) : result Component :=
  let imageIndex := default_arg index (Fin 0) in
  let this :=
    mkComponent (onCloseIsFunction this) (onCloseCalls this)
      (map getInitalParams images)
      (state this) (isScrolling this) (footerHeight this)
      (initialTouches this) (currentTouchesNum this) (doubleTapTimer this)
      (modalBackgroundOpacity this) (headerTranslateValue this)
      (footerTranslateValue this) (imageScaleValue this)
      (imageTranslateValue this) in
  p <- defined (get (imageInitialParams this) imageIndex) ;;
  let this :=
    setState (fun s => set_imageTranslate (translate p)
                         (set_imageScale (scale p)
                            (set_imageIndex imageIndex s))) this in
  let this := set_imageScaleValue (scale p) this in
  Ok (set_imageTranslateValue (translate p) this).

(** [Math.round(x / screenWidth)] of [onNextImage], with [x] the horizontal
    content offset, 0 when the event carries none. *)
Definition scrollOffset (event : ScrollEvent) : number :=
  match contentOffset event with
  | Some x => x
  | None => Fin 0
  end.

Definition nextImageIndex (event : ScrollEvent) : number :=
  round (scrollOffset event / screenWidth)%num.

Definition onNextImage (event : ScrollEvent) (this : Component)
  : result Component :=
  let imageIndex := imageIndex (state this) in
  let x := scrollOffset event in
  let nextImageIndex := nextImageIndex event in
  let this := set_isScrolling (rem x screenWidth >? Fin 10)%num this in
  if (imageIndex !== nextImageIndex)%num && (nextImageIndex >=? Fin 0)%num then
    nextImageScale <- getInitialScale (Some nextImageIndex) this ;;
    nextImageTranslate <- getInitialTranslate (Some nextImageIndex) this ;;
    let this :=
      setState (fun s => set_imageTranslate nextImageTranslate
                           (set_imageScale nextImageScale
                              (set_imageIndex nextImageIndex s))) this in
    let this := set_imageScaleValue nextImageScale this in
    Ok (set_imageTranslateValue nextImageTranslate this)
  else Ok this.

Definition onGestureStart (event : NativeEvent) (this : Component)
  : Component :=
  let this := set_initialTouches (touches event) this in
  set_currentTouchesNum (length (touches event)) this.

(** The clamp at the end of [onGestureMove]. *)
Definition clampScale (imageInitialScale nextScale : number) : number :=
  if (nextScale <? imageInitialScale)%num then imageInitialScale
  else if (nextScale >? SCALE_MAXIMUM)%num then SCALE_MAXIMUM
  else nextScale.

Definition onGestureMove (event : NativeEvent) (gestureState : GestureState)
  (this : Component) : result Component :=
  if isScrolling this then Ok this else
  let this :=
    if Nat.eqb (currentTouchesNum this) 1
       && Nat.eqb (length (touches event)) 2
    then set_initialTouches (touches event) this else this in
  let imageScale := imageScale (state this) in
  let touches := touches event in
  let x := tx (imageTranslate (state this)) in
  let y := ty (imageTranslate (state this)) in
  let dx := dx gestureState in
  let dy := dy gestureState in
  imageInitialScale <- getInitialScale None this ;;
  image <- defined (get (images (state this)) (imageIndex (state this))) ;;
  let height := to_number (height image) in
  let this :=
    if (imageScale !== imageInitialScale)%num
    then set_imageTranslateValue (set_x (x + dx)%num (imageTranslateValue this)) this
    else this in
  let this :=
    if (imageScale * height >? screenHeight)%num
    then set_imageTranslateValue (set_y (y + dy)%num (imageTranslateValue this)) this
    else this in
  let this :=
    if scalesAreEqual imageScale imageInitialScale
       && (height * imageInitialScale <? screenHeight)%num
    then
      let backgroundOpacity := abs (dy * BACKGROUND_OPACITY_MULTIPLIER)%num in
      let this :=
        set_imageTranslateValue (set_y (y + dy)%num (imageTranslateValue this)) this in
      set_modalBackgroundOpacity
        (if (backgroundOpacity >? Fin 1)%num then Fin 1 else backgroundOpacity) this
    else this in
  let currentDistance := getDistance touches in
  let initialDistance := getDistance (initialTouches this) in
  let scrollEnabled := (abs dy <? FREEZE_SCROLL_DISTANCE)%num in
  let this := setState (set_scrollEnabled scrollEnabled) this in
  if negb (truthy initialDistance) then Ok this else
  if Nat.ltb (length touches) 2 then Ok this else
  let nextScale := (getScale currentDistance initialDistance * imageScale)%num in
  let nextScale := clampScale imageInitialScale nextScale in
  let this := set_imageScaleValue nextScale this in
  Ok (set_currentTouchesNum (length touches) this).

(** The closure [getTranslate] of [calcultateNextTranslate].
    [imageInitialScale] is what the destructuring
    [const {imageInitialScale} = this.getInitialScale()] binds: the property
    of that name of a number, which is [undefined]. *)
Definition nextTranslateOn (axis : Axis) (x y dx dy scale : number)
  (width height : number) (imageInitialScale : option number) : number :=
  let imageSize := match axis with AxisX => width | AxisY => height end in
  let screenSize :=
    match axis with AxisX => screenWidth | AxisY => screenHeight end in
  let leftLimit := ((scale * imageSize - imageSize) / Fin 2)%num in
  let rightLimit := (screenSize - imageSize - leftLimit)%num in
  let nextTranslate :=
    match axis with AxisX => (x + dx)%num | AxisY => (y + dy)%num end in
  if (screenSize >? scale * imageSize)%num then
    if (width >=? height)%num then ((screenSize - imageSize) / Fin 2)%num
    else (screenSize / Fin 2
          - imageSize * (scale / to_number imageInitialScale) / Fin 2)%num
  else
    let nextTranslate :=
      if (nextTranslate >? leftLimit)%num then leftLimit else nextTranslate in
    let nextTranslate :=
      if (nextTranslate <? rightLimit)%num then rightLimit else nextTranslate in
    nextTranslate.

Definition calcultateNextTranslate (dx dy scale : number) (this : Component)
  : result TranslateType :=
  let x := tx (imageTranslate (state this)) in
  let y := ty (imageTranslate (state this)) in
  image <- defined (get (images (state this)) (imageIndex (state this))) ;;
  let width := to_number (width image) in
  let height := to_number (height image) in
  _ <- getInitialScale None this ;;
  let imageInitialScale : option number := None in
  let getTranslate axis :=
    nextTranslateOn axis x y dx dy scale width height imageInitialScale in
  Ok {| tx := getTranslate AxisX; ty := getTranslate AxisY |}.

Definition close (this : Component) : Component :=
  let this := setState (set_isVisible false) this in
  if onCloseIsFunction this
  then set_onCloseCalls (S (onCloseCalls this)) this
  else this.

Definition togglePanels (isVisible : option bool) (this : Component)
  : Component :=
  let panelsVisible :=
    match isVisible with
    | Some b => b
    | None => negb (panelsVisible (state this))
    end in
  let this := setState (set_panelsVisible panelsVisible) this in
  let this :=
    set_headerTranslateValue
      (set_y (if negb panelsVisible then neg HEADER_HEIGHT else Fin 0)
             (headerTranslateValue this)) this in
  if (footerHeight this >? Fin 0)%num then
    set_footerTranslateValue
      (set_y (if negb panelsVisible then footerHeight this else Fin 0)
             (footerTranslateValue this)) this
  else this.

(** The callback of the double-tap timer, 200 ms after a single tap. *)
Definition doubleTapTimeout (this : Component) : Component :=
  set_doubleTapTimer false (togglePanels None this).

(** The scale a double tap animates to. *)
Definition doubleTapScale (imageInitialScale scale : number) : number :=
  if scalesAreEqual imageInitialScale scale
  then (scale * SCALE_MAX_MULTIPLIER)%num
  else imageInitialScale.

(** [this.doubleTapTimer] is [true] while a timer is pending. [event] is
    [None] when the handler is called without an event.  A release that
    closes the overlay starts a second animation of [imageTranslateValue.y]
    right after the group that animates the opacity and the translate; the
    properties of the component rely on what the group reaches only for a
    release that does not close, and for one that closes only on where the
    second animation ends. *)
Definition onGestureRelease (event : option NativeEvent)
  (gestureState : GestureState) (this : Component) : result Component :=
  let imageScale := imageScale (state this) in
  let scale := imageScaleValue this in
  let modalBackgroundOpacity := modalBackgroundOpacity this in
  let dx := dx gestureState in
  let dy := dy gestureState in
  let vy := vy gestureState in
  imageInitialScale <- getInitialScale None this ;;
  imageInitialTranslate <- getInitialTranslate None this ;;
  let '(scale, this) :=
    if match event with Some _ => true | None => false end
       && negb (truthy dx) && negb (truthy dy)
       && scalesAreEqual imageScale scale
    then
      if doubleTapTimer this then
        let this := set_doubleTapTimer false this in
        let scale := doubleTapScale imageInitialScale scale in
        let this := set_imageScaleValue scale this in
        (scale, togglePanels (Some (scale === imageInitialScale)%num) this)
      else (scale, set_doubleTapTimer true this)
    else (scale, this) in
  t <- calcultateNextTranslate dx dy scale this ;;
  let x := tx t in
  let y := ty t in
  let scrollEnabled :=
    (scale === imageInitialScale)%num
    && (x === tx imageInitialTranslate)%num
    && (y === ty imageInitialTranslate)%num in
  let x := if isNaN x then tx imageInitialTranslate else x in
  let y := if isNaN y then ty imageInitialTranslate else y in
  let this :=
    if (modalBackgroundOpacity >? Fin 0)%num
    then set_modalBackgroundOpacity (Fin 0) this else this in
  let this := set_imageTranslateValue {| tx := x; ty := y |} this in
  let closing :=
    (scale === imageInitialScale)%num
    && (abs vy >=? IMAGE_SPEED_FOR_CLOSE)%num in
  let this :=
    if closing
    then set_imageTranslateValue
           (set_y (y + Fin 400 * vy)%num (imageTranslateValue this)) this
    else this in
  let this :=
    setState (fun s => set_scrollEnabled scrollEnabled
                         (set_imageTranslate {| tx := x; ty := y |}
                            (set_imageScale scale s))) this in
  Ok (if closing then close this else this).

(** *** The rest of the module: list layout, image sizes, styles *)

(** The value of [getItemLayout(data, index)]; the fields [length],
    [offset] and [index] are [itemLength], [itemOffset] and [itemIndex]. *)
Record ItemLayout : Type := mkLayout {
  itemLength : number;
  itemOffset : number;
  itemIndex : number;
}.

Definition getItemLayout (data : list ImageType) (index : number)
  : ItemLayout :=
  {| itemLength := screenWidth;
     itemOffset := (screenWidth * index)%num;
     itemIndex := index |}.

(** [!v] on a value that is a number or [undefined]. *)
Definition falsy (v : option number) : bool :=
  match v with
  | Some n => negb (truthy n)
  | None => true
  end.

Definition getImagesWithoutSize (images : list ImageType)
  : list ImageType :=
  filter (fun image => falsy (width image) || falsy (height image)) images.

(** What a promise of [fetchImageSize] resolves to. *)
Record FetchedSize : Type := mkFetched {
  fetchedWidth : number;
  fetchedHeight : number;
  fetchedIndex : number;
}.

(** [array.map((element, index) => ...)], counting from [index]. *)
Fixpoint mapWithIndex {A B : Type} (f : A -> nat -> B) (l : list A)
  (index : nat) : list B :=
  match l with
  | [] => []
  | a :: rest => f a index :: mapWithIndex f rest (S index)
  end.

Definition set_images (v : list ImageType) (s : State) : State :=
  mkState v (isVisible s) (imageIndex s) (imageScale s) (imageTranslate s)
          (scrollEnabled s) (panelsVisible s).

(** [setSizeForImages(nextImages)].  The method assigns to the image
    objects of [this.state.images] in place and returns an array of those
    same objects: the pair is the returned array and the component whose
    state holds the images as they are afterwards.  The objects of the
    array are taken to be pairwise distinct here; [InPlace.setSizeForImages]
    below is the method on objects that can be listed more than once. *)
Definition setSizeForImages (nextImages : list FetchedSize)
  (this : Component) : list ImageType * Component :=
  if Nat.eqb (length nextImages) 0 then ([], this) else
  let images := images (state this) in
  let sizedImages :=
    mapWithIndex
      (fun image index =>
         match find (fun nextImage =>
                       (fetchedIndex nextImage
                        === Fin (IZR (Z.of_nat index)))%num) nextImages with
         | Some nextImageSize =>
             {| width := Some (fetchedWidth nextImageSize);
                height := Some (fetchedHeight nextImageSize) |}
         | None => image
         end) images 0 in
  (sizedImages, setState (set_images sizedImages) this).

(** An entry of the [transform] array of a style. *)
Inductive Transform : Type :=
| translateX (v : number)
| translateY (v : number)
| scaleBy (v : number).

(** The value of [getImageStyle]: [{opacity: 0}], or a width, a height and
    a transform.  An animated value stands for its current value. *)
Inductive ImageStyle : Type :=
| Transparent
| Styled (styleWidth styleHeight : number) (transform : list Transform).

Definition getTranslateTransform (t : TranslateType) : list Transform :=
  [translateX (tx t); translateY (ty t)].

Definition getImageStyle (image : ImageType) (index : number)
  (this : Component) : result ImageStyle :=
  let imageIndex := imageIndex (state this) in
  if falsy (width image) || falsy (height image) then Ok Transparent else
  let traslateValue :=
    calculateInitalTranslate (width image)
      (Some (to_number (height image) + Fin 1)%num) in
  let transform :=
    if (index === imageIndex)%num
    then getTranslateTransform (imageTranslateValue this)
    else getTranslateTransform traslateValue in
  scale <- (if (index === imageIndex)%num
            then Ok (imageScaleValue this)
            else getInitialScale (Some index) this) ;;
  Ok (Styled (to_number (width image)) (to_number (height image))
             (transform ++ [scaleBy scale])).

End Screen.

(** *** Image objects listed more than once

    [setSizeForImages] assigns to the image objects of [this.state.images]
    in place.  Above, an array of images is a list of records, which is what
    the method computes when the objects of the array are pairwise
    distinct.  Here the array is a list of references into a store of
    objects, so that one object can be listed at several positions: the
    method assigns to the objects in the store and returns the references
    it was given. *)
Module InPlace.

(** [store[r] = image]; a reference always addresses an object. *)
Fixpoint assign (r : nat) (image : ImageType) (store : list ImageType)
  : list ImageType :=
  match store, r with
  | [], _ => []
  | _ :: rest, O => image :: rest
  | o :: rest, S r => o :: assign r image rest
  end.

(** The images an array of references shows. *)
Definition view (store : list ImageType) (refs : list nat)
  : list ImageType :=
  map (fun r => nth r store {| width := None; height := None |}) refs.

(** The callback of [images.map], run from position [index] on. *)
Fixpoint sizeInPlace (nextImages : list FetchedSize) (refs : list nat)
  (index : nat) (store : list ImageType) : list ImageType :=
  match refs with
  | [] => store
  | image :: rest =>
      let store :=
        match find (fun nextImage =>
                      (fetchedIndex nextImage
                       === Fin (IZR (Z.of_nat index)))%num) nextImages with
        | Some nextImageSize =>
            assign image
              {| width := Some (fetchedWidth nextImageSize);
                 height := Some (fetchedHeight nextImageSize) |} store
        | None => store
        end in
      sizeInPlace nextImages rest (S index) store
  end.

(** The returned array and the store afterwards. *)
Definition setSizeForImages (nextImages : list FetchedSize)
  (refs : list nat) (store : list ImageType) : list nat * list ImageType :=
  if Nat.eqb (length nextImages) 0 then ([], store)
  else (refs, sizeInPlace nextImages refs 0 store).

End InPlace.

(* ================================================================== *)
(** ** Vocabulary of the properties *)
(* ================================================================== *)

(** A view of size [imageSize] drawn at offset [t] is centred in a screen
    of size [screenSize]: the scale transform keeps the centre of the view
    in place, so this does not depend on the zoom. *)
Definition centres (screenSize imageSize t : number) : Prop :=
  (t + imageSize / Fin 2)%num = (screenSize / Fin 2)%num.

(** The gesture state of a finger that went down and up in place. *)
Definition still : GestureState :=
  {| dx := Fin 0; dy := Fin 0; vx := Fin 0; vy := Fin 0 |}.

(** A tap is a release in place; a double tap is two taps with no timer
    callback in between. *)
Definition tap (window : Dimensions) (this : Component) : result Component :=
  onGestureRelease window (Some {| touches := [] |}) still this.

Definition doubleTap (window : Dimensions) (this : Component)
  : result Component :=
  this <- tap window this ;; tap window this.

(** The component once mounted and shown on the image of index [index],
    visible and with [onClose] a function. *)
Definition shown (window : Dimensions) (images : list ImageType) (index : Z)
  : result Component :=
  this <- constructor window images (Fin (IZR index)) true true ;;
  onNextImagesReceived window images (Some (Fin (IZR index))) this.

(** The state of a component the handlers can run on: the current index
    addresses an image and its initial parameters. *)
Definition ready (this : Component) (p : InitialParams) (image : ImageType)
  : Prop :=
  get (imageInitialParams this) (imageIndex (state this)) = Some p
  /\ get (images (state this)) (imageIndex (state this)) = Some image.

(** The release is a tap: the first condition of [onGestureRelease]. *)
Definition isTap (event : option NativeEvent) (gestureState : GestureState)
  (this : Component) : bool :=
  match event with Some _ => true | None => false end
  && negb (truthy (dx gestureState)) && negb (truthy (dy gestureState))
  && scalesAreEqual (imageScale (state this)) (imageScaleValue this).

(** The scale a release settles on: the animated scale, or what a double
    tap makes of it. *)
Definition releasedScale (event : option NativeEvent)
  (gestureState : GestureState) (this : Component)
  (imageInitialScale : number) : number :=
  if isTap event gestureState this && doubleTapTimer this
  then doubleTapScale imageInitialScale (imageScaleValue this)
  else imageScaleValue this.

(** The condition under which a release closes the overlay. *)
Definition closes (releasedScale imageInitialScale vy : number) : bool :=
  (releasedScale === imageInitialScale)%num
  && (abs vy >=? IMAGE_SPEED_FOR_CLOSE)%num.

(** A component whose NaN translate components were replaced. *)
Definition orInitial (t initial : number) : number :=
  if isNaN t then initial else t.

(** [this.initialTouches] as [onGestureMove] reads it, after the update
    that a second finger triggers. *)
Definition movedInitialTouches (event : NativeEvent) (this : Component)
  : list TouchType :=
  if Nat.eqb (currentTouchesNum this) 1 && Nat.eqb (length (touches event)) 2
  then touches event else initialTouches this.

(** The bounds of the pan on an axis, over the reals. *)
Definition leftLimit (scale imageSize : R) : R :=
  (scale * imageSize - imageSize) / 2.

Definition rightLimit (screenSize scale imageSize : R) : R :=
  screenSize - imageSize - leftLimit scale imageSize.

(** An image of known size. *)
Definition sized (w h : R) : ImageType :=
  {| width := Some (Fin w); height := Some (Fin h) |}.

(** Two fingers, 5 apart. *)
Definition twoFingers : NativeEvent :=
  {| touches := [ {| pageX := Fin 0; pageY := Fin 0 |};
                  {| pageX := Fin 3; pageY := Fin 4 |} ] |}.

(** A window of 400 by 800 and a downward flick, for the examples. *)
Definition phone : Dimensions :=
  {| window_width := 400; window_height := 800 |}.

Definition flick : GestureState :=
  {| dx := Fin 0; dy := Fin 120; vx := Fin 0; vy := Fin 2 |}.

(** A gesture that ends where it began while the finger still moves. *)
Definition flickInPlace : GestureState :=
  {| dx := Fin 0; dy := Fin 0; vx := Fin 0; vy := Fin 2 |}.

(** One finger, and a drag of 50 to the right and 120 down that ends at
    rest. *)
Definition oneFinger : NativeEvent :=
  {| touches := [ {| pageX := Fin 50; pageY := Fin 120 |} ] |}.

Definition drag : GestureState :=
  {| dx := Fin 50; dy := Fin 120; vx := Fin 0; vy := Fin 0 |}.

(** A touch at a finite position. *)
Definition finiteTouch (t : TouchType) : Prop :=
  exists x y : R, t = {| pageX := Fin x; pageY := Fin y |}.

(** A scale between the initial scale of the image and [SCALE_MAXIMUM]. *)
Definition zoomInRange (imageInitialScale s : number) : Prop :=
  (imageInitialScale <=? s)%num = true /\ (s <=? SCALE_MAXIMUM)%num = true.

(** A backdrop opacity between 0 and 1. *)
Definition opacityInRange (o : number) : Prop :=
  (Fin 0 <=? o)%num = true /\ (o <=? Fin 1)%num = true.

(** A scroll event at the horizontal offset [x]. *)
Definition scrolledTo (x : number) : ScrollEvent :=
  {| contentOffset := Some x |}.

(** An image whose size is not known yet. *)
Definition unsized : ImageType := {| width := None; height := None |}.

(** The size [setSizeForImages] gives to the image at position [index]:
    the first fetched size with that [index]. *)
Definition sizeAt (nextImages : list FetchedSize) (index : nat)
  : option FetchedSize :=
  find (fun nextImage =>
          (fetchedIndex nextImage === Fin (IZR (Z.of_nat index)))%num)
       nextImages.

(** An image has its two sizes. *)
Definition hasSize (image : ImageType) : bool :=
  negb (falsy (width image) || falsy (height image)).

(* ================================================================== *)
(** ** The initial scale on binary64 *)
(* ================================================================== *)

(** [calculateInitialScale] over the binary64 numbers of the language (the
    kernel's floats, with the operations of IEEE 754), for a width and a
    height that are given; the window size is the first two arguments, and
    [a > b] is written [b <? a].  It evaluates by computation. *)
Module F64.
Import Floats.

Definition calculateInitialScale
  (screenWidth screenHeight imageWidth imageHeight : float) : float :=
  let screenRatio := (screenHeight / screenWidth)%float in
  let imageRatio := (imageHeight / imageWidth)%float in
  if (screenWidth <? imageWidth)%float || (screenHeight <? imageHeight)%float
  then
    if (imageRatio <? screenRatio)%float
    then (screenWidth / imageWidth)%float
    else (screenHeight / imageHeight)%float
  else 1%float.

End F64.

(* ================================================================== *)
(** ** Tactics *)
(* ================================================================== *)

(** Reduce the projections of a component that went through setters. *)
Ltac fields :=
  cbn [onCloseIsFunction onCloseCalls imageInitialParams state isScrolling
       footerHeight initialTouches currentTouchesNum doubleTapTimer
       modalBackgroundOpacity headerTranslateValue footerTranslateValue
       imageScaleValue imageTranslateValue
       images isVisible imageIndex imageScale imageTranslate scrollEnabled
       panelsVisible tx ty scale translate
       setState set_onCloseCalls set_isScrolling set_initialTouches
       set_currentTouchesNum set_doubleTapTimer set_modalBackgroundOpacity
       set_headerTranslateValue set_footerTranslateValue set_imageScaleValue
       set_imageTranslateValue set_isVisible set_imageIndex set_imageScale
       set_imageTranslate set_scrollEnabled set_panelsVisible set_x set_y
       bind defined] in *.

(** Split on the condition of every conditional in the goal, those that
    choose between two components first. *)
Ltac branches :=
  repeat match goal with
    | |- context [if ?b then ?x else _] =>
        match type of x with Component => destruct b eqn:?; fields end
    end;
  repeat match goal with
    | |- context [if ?b then _ else _] => destruct b eqn:?; fields
    end.

(** Case analysis on every decision on reals in sight, closing the cases
    that linear arithmetic refutes. *)
Ltac real_cases :=
  repeat match goal with
    | |- context [Rlt_dec ?a ?b] => destruct (Rlt_dec a b); try lra
    | |- context [Req_dec_T ?a ?b] => destruct (Req_dec_T a b); try lra
    | H : context [Rlt_dec ?a ?b] |- _ => destruct (Rlt_dec a b); try lra
    | H : context [Req_dec_T ?a ?b] |- _ => destruct (Req_dec_T a b); try lra
    end.

Ltac num_unfold :=
  unfold Num.min, ge, gt, le, lt, strict_ne, strict_eq, sub, add, neg, mul,
    div, scale_inf, sgn, abs, isNaN, truthy, Rltb, Reqb in *.


(* ================================================================== *)
(** ** Reasoning about numbers *)
(* ================================================================== *)

Lemma Rltb_true (a b : R) : Rltb a b = true <-> a < b.
Proof. unfold Rltb; destruct (Rlt_dec a b); split; intros; auto; discriminate. Qed.

Lemma Rltb_false (a b : R) : Rltb a b = false <-> b <= a.
Proof.
  unfold Rltb; destruct (Rlt_dec a b); split; intros; auto; try discriminate; lra.
Qed.

Lemma Reqb_true (a b : R) : Reqb a b = true <-> a = b.
Proof. unfold Reqb; destruct (Req_dec_T a b); split; intros; auto; discriminate. Qed.

Lemma Reqb_false (a b : R) : Reqb a b = false <-> a <> b.
Proof.
  unfold Reqb; destruct (Req_dec_T a b); split; intros; auto; try discriminate.
  contradiction.
Qed.

Lemma le_fin (a b : R) : (Fin a <=? Fin b)%num = true <-> a <= b.
Proof.
  unfold le; simpl. rewrite orb_true_iff, Rltb_true, Reqb_true. lra.
Qed.

Lemma le_fin_false (a b : R) : (Fin a <=? Fin b)%num = false <-> b < a.
Proof.
  unfold le; simpl. rewrite orb_false_iff, Rltb_false, Reqb_false. lra.
Qed.

Lemma div_fin (x y : R) : y <> 0 -> (Fin x / Fin y)%num = Fin (x / y).
Proof. intros Hy; simpl. destruct (Req_dec_T y 0); [contradiction | reflexivity]. Qed.

Lemma div_zero_pos (x : R) : 0 < x -> (Fin x / Fin 0)%num = PInf.
Proof.
  intros Hx; simpl. destruct (Req_dec_T 0 0) as [_ | H]; [| now elim H].
  unfold scale_inf, sgn. destruct (Rlt_dec 0 x); [reflexivity | contradiction].
Qed.

Lemma Rdiv_lt_cross (a b c d : R) :
  0 < b -> 0 < d -> (a / b < c / d <-> a * d < c * b).
Proof.
  intros Hb Hd. split; intros H.
  - apply (Rmult_lt_compat_r (b * d)) in H; [| nra].
    replace (a / b * (b * d)) with (a * d) in H by (field; lra).
    replace (c / d * (b * d)) with (c * b) in H by (field; lra).
    exact H.
  - apply (Rmult_lt_reg_r (b * d)); [nra |].
    replace (a / b * (b * d)) with (a * d) by (field; lra).
    replace (c / d * (b * d)) with (c * b) by (field; lra).
    exact H.
Qed.

Lemma Rdiv_le_cross (a b c d : R) :
  0 < b -> 0 < d -> (a / b <= c / d <-> a * d <= c * b).
Proof.
  intros Hb Hd.
  pose proof (Rdiv_lt_cross c d a b Hd Hb) as H.
  split; intros H1; apply Rnot_lt_le; intros H2; apply H in H2 || apply H in H2; lra.
Qed.

Lemma Rdiv_mul_le (a b c d : R) :
  0 < b -> 0 <= c -> a * c <= d * b -> a / b * c <= d.
Proof.
  intros Hb Hc H.
  apply (Rmult_le_reg_r b); [exact Hb |].
  replace (a / b * c * b) with (a * c) by (field; lra). exact H.
Qed.

Section InitialScale.

Variables sw sh : R.
Hypothesis sw_pos : 0 < sw.
Hypothesis sh_pos : 0 < sh.

(** An image that exceeds the screen on an axis is scaled down to fit, on
    the exact numbers of the model. *)
Lemma calculateInitialScale_big (w h : R) :
  0 <= w -> 0 <= h -> sw < w \/ sh < h ->
  let s := calculateInitialScale (mkWindow sw sh) (Some (Fin w)) (Some (Fin h)) in
  s = Num.min (Fin sw / Fin w) (Fin sh / Fin h)
  /\ (s * Fin w <=? Fin sw)%num = true
  /\ (s * Fin h <=? Fin sh)%num = true.
Proof.
  intros Hw Hh Hbig s; subst s.
  unfold calculateInitialScale, screenWidth, screenHeight, default_arg.
  cbn [window_width window_height].
  assert (Hc : ((Fin w >? Fin sw)%num || (Fin h >? Fin sh)%num) = true).
  { unfold gt, lt. apply orb_true_iff. rewrite !Rltb_true. exact Hbig. }
  rewrite Hc. clear Hc.
  rewrite (div_fin sh sw) by lra.
  destruct (Req_dec_T w 0) as [-> | Hw0].
  - (* no width: the height is the one that exceeds the screen *)
    assert (Hh' : sh < h) by lra.
    rewrite (div_zero_pos h), (div_zero_pos sw), (div_fin sh h) by lra.
    unfold gt, Num.min. cbn [lt mul].
    change (PInf <=? Fin (sh / h))%num with false. cbn iota.
    rewrite !le_fin. split; [reflexivity |].
    split; [lra |]. unfold Rdiv. rewrite Rmult_assoc, Rinv_l; lra.
  - assert (Hwp : 0 < w) by lra.
    rewrite (div_fin h w), (div_fin sw w) by lra.
    destruct (Req_dec_T h 0) as [-> | Hh0].
    + rewrite (div_zero_pos sh) by lra.
      unfold gt, Num.min. cbn [lt mul].
      assert (Hr : Rltb (0 / w) (sh / sw) = true).
      { apply Rltb_true. apply Rdiv_lt_cross; nra. }
      rewrite Hr.
      change (Fin (sw / w) <=? PInf)%num with true. cbn [mul].
      rewrite !le_fin.
      split; [reflexivity |]. split.
      * apply Rdiv_mul_le; nra.
      * lra.
    + assert (Hhp : 0 < h) by lra.
      rewrite (div_fin sh h) by lra.
      unfold gt, Num.min. cbn [lt mul].
      destruct (Rltb (h / w) (sh / sw)) eqn:Hr.
      * apply Rltb_true in Hr. rewrite Rdiv_lt_cross in Hr by lra.
        assert (Hm : (Fin (sw / w) <=? Fin (sh / h))%num = true).
        { apply le_fin. rewrite Rdiv_le_cross by lra. nra. }
        rewrite Hm. cbn [mul]. rewrite !le_fin.
        split; [reflexivity |].
        split; apply Rdiv_mul_le; nra.
      * apply Rltb_false in Hr. rewrite Rdiv_le_cross in Hr by lra.
        split.
        -- destruct (Fin (sw / w) <=? Fin (sh / h))%num eqn:Hm;
             [| reflexivity].
           apply le_fin in Hm. rewrite Rdiv_le_cross in Hm by lra.
           f_equal. apply Rle_antisym; rewrite Rdiv_le_cross by lra; nra.
        -- cbn [mul]. rewrite !le_fin. split; apply Rdiv_mul_le; nra.
Qed.

End InitialScale.

(** An image within the screen on both axes keeps its size. *)
Lemma calculateInitialScale_small (window : Dimensions) (w h : R) :
  w <= window_width window -> h <= window_height window ->
  calculateInitialScale window (Some (Fin w)) (Some (Fin h)) = Fin 1.
Proof.
  intros H1 H2.
  unfold calculateInitialScale, screenWidth, screenHeight, default_arg.
  assert (Hc : ((Fin w >? Fin (window_width window))%num
                || (Fin h >? Fin (window_height window))%num) = false).
  { unfold gt, lt. apply orb_false_iff. rewrite !Rltb_false. auto. }
  now rewrite Hc.
Qed.


(** The initial scale of an image of known size never enlarges it. *)
Lemma calculateInitialScale_le_one (sw sh w h : R) :
  0 < sw -> 0 < sh -> 0 <= w -> 0 <= h ->
  (calculateInitialScale (mkWindow sw sh) (Some (Fin w)) (Some (Fin h))
   <=? Fin 1)%num = true.
Proof.
  intros Hsw Hsh Hw Hh.
  destruct (Rle_dec w sw) as [Hws | Hws], (Rle_dec h sh) as [Hhs | Hhs];
    try (rewrite calculateInitialScale_small by (cbn; lra);
         apply le_fin; lra).
  all: destruct (calculateInitialScale_big sw sh Hsw Hsh w h Hw Hh)
         as (_ & Hfw & Hfh); [lra |].
  all: destruct (calculateInitialScale _ _ _) as [| | | s];
         try discriminate; try reflexivity.
  all: cbn [mul] in Hfw, Hfh; unfold scale_inf, sgn in Hfw, Hfh.
  all: try (destruct (Rlt_dec 0 w); [discriminate | lra]).
  all: try (destruct (Rlt_dec 0 h); [discriminate | lra]).
  all: apply le_fin in Hfw; apply le_fin in Hfh; apply le_fin; nra.
Qed.

(** The smaller of two numbers is at most each of them. *)
Lemma min_le (a b : number) :
  isNaN a = false -> isNaN b = false ->
  (Num.min a b <=? a)%num = true /\ (Num.min a b <=? b)%num = true.
Proof.
  intros Ha Hb.
  destruct a as [| | | x], b as [| | | y]; try discriminate;
    unfold Num.min, le, lt, strict_eq, Rltb, Reqb; cbn;
    real_cases; cbn; real_cases; auto.
Qed.

(** A positive number over a non-negative one is positive. *)
Lemma div_pos (a b : R) :
  0 < a -> 0 <= b ->
  (Fin 0 <? Fin a / Fin b)%num = true /\ isNaN (Fin a / Fin b)%num = false.
Proof.
  intros Ha Hb. destruct (Req_dec_T b 0) as [-> | Hb0].
  - rewrite div_zero_pos by exact Ha. split; reflexivity.
  - rewrite div_fin by exact Hb0. split; [| reflexivity].
    apply Rltb_true. apply Rdiv_lt_0_compat; lra.
Qed.

Lemma to_index_IZR (z : Z) :
  (0 <= z)%Z -> to_index (Fin (IZR z)) = Some (Z.to_nat z).
Proof.
  intros Hz. unfold to_index. rewrite ZfloorZ.
  destruct (Req_dec_T (IZR z) (IZR z)) as [_ | H]; [| now elim H].
  apply Z.leb_le in Hz. now rewrite Hz.
Qed.

Lemma get_IZR {A : Type} (l : list A) (z : Z) :
  (0 <= z)%Z -> get l (Fin (IZR z)) = nth_error l (Z.to_nat z).
Proof. intros Hz. unfold get. now rewrite to_index_IZR. Qed.

Lemma half_sub (s : R) (i : number) :
  (Fin s / Fin 2 - i / Fin 2)%num = ((Fin s - i) / Fin 2)%num.
Proof.
  destruct i as [| | | r]; simpl;
    repeat match goal with
      | |- context [Req_dec_T ?a ?b] => destruct (Req_dec_T a b); try lra
      | |- context [Rlt_dec ?a ?b] => destruct (Rlt_dec a b); try lra
      end; simpl; try reflexivity.
  f_equal. field.
Qed.

Section Translate.
Variable window : Dimensions.

Lemma calculateInitalTranslate_eq (imageWidth imageHeight : option number) :
  calculateInitalTranslate window imageWidth imageHeight =
  {| tx := ((screenWidth window - default_arg imageWidth (Fin 0)) / Fin 2)%num;
     ty := ((screenHeight window - default_arg imageHeight (Fin 0)) / Fin 2)%num |}.
Proof.
  unfold calculateInitalTranslate, screenWidth, screenHeight.
  destruct (_ >=? _)%num; [reflexivity |].
  now rewrite !half_sub.
Qed.

End Translate.


(* ================================================================== *)
(** ** The handlers on a ready component *)
(* ================================================================== *)

Section Handlers.
Variable window : Dimensions.

Lemma getInitialScale_ready (this : Component) (p : InitialParams) :
  get (imageInitialParams this) (imageIndex (state this)) = Some p ->
  getInitialScale None this = Ok (scale p).
Proof. intros H. unfold getInitialScale, indexOrCurrent. now rewrite H. Qed.

Lemma getInitialTranslate_ready (this : Component) (p : InitialParams) :
  get (imageInitialParams this) (imageIndex (state this)) = Some p ->
  getInitialTranslate None this = Ok (translate p).
Proof. intros H. unfold getInitialTranslate, indexOrCurrent. now rewrite H. Qed.

Lemma onGestureMove_runs (event : NativeEvent) (gestureState : GestureState)
  (this : Component) (p : InitialParams) (image : ImageType) :
  isScrolling this = false ->
  ready this p image ->
  let its := movedInitialTouches event this in
  exists this',
    onGestureMove window event gestureState this = Ok this'
    /\ initialTouches this' = its
    /\ if negb (truthy (getDistance its))
       then imageScaleValue this' = imageScaleValue this
            /\ currentTouchesNum this' = currentTouchesNum this
       else if Nat.ltb (length (touches event)) 2
       then imageScaleValue this' = imageScaleValue this
            /\ currentTouchesNum this' = currentTouchesNum this
       else imageScaleValue this' =
              clampScale (scale p)
                (getScale (getDistance (touches event)) (getDistance its)
                 * imageScale (state this))%num
            /\ currentTouchesNum this' = length (touches event).
Proof.
  intros Hs [Hp Hi] its. subst its.
  unfold onGestureMove, movedInitialTouches. rewrite Hs.
  destruct (Nat.eqb (currentTouchesNum this) 1
            && Nat.eqb (length (touches event)) 2);
    (rewrite (getInitialScale_ready _ p) by exact Hp);
    fields; rewrite Hi; fields; cbv zeta;
    branches; eexists; repeat split; reflexivity.
Qed.

End Handlers.

Section Release.
Variable window : Dimensions.

Lemma calcultateNextTranslate_ready (dx dy s : number) (this : Component)
  (p : InitialParams) (image : ImageType) :
  ready this p image ->
  calcultateNextTranslate window dx dy s this =
  Ok {| tx := nextTranslateOn window AxisX
                (tx (imageTranslate (state this)))
                (ty (imageTranslate (state this))) dx dy s
                (to_number (width image)) (to_number (height image)) None;
        ty := nextTranslateOn window AxisY
                (tx (imageTranslate (state this)))
                (ty (imageTranslate (state this))) dx dy s
                (to_number (width image)) (to_number (height image)) None |}.
Proof.
  intros [Hp Hi]. unfold calcultateNextTranslate.
  rewrite Hi; fields. rewrite (getInitialScale_ready _ p) by exact Hp.
  reflexivity.
Qed.

Lemma onGestureRelease_runs (event : option NativeEvent)
  (gestureState : GestureState) (this : Component)
  (p : InitialParams) (image : ImageType) :
  ready this p image ->
  let s := releasedScale event gestureState this (scale p) in
  exists this' t,
    onGestureRelease window event gestureState this = Ok this'
    /\ calcultateNextTranslate window (dx gestureState) (dy gestureState) s this
       = Ok t
    /\ imageScale (state this') = s
    /\ imageTranslate (state this') =
         {| tx := orInitial (tx t) (tx (translate p));
            ty := orInitial (ty t) (ty (translate p)) |}
    /\ imageScaleValue this' = s
    /\ tx (imageTranslateValue this') = orInitial (tx t) (tx (translate p))
    /\ doubleTapTimer this' =
         (if isTap event gestureState this
          then negb (doubleTapTimer this) else doubleTapTimer this)
    /\ isVisible (state this') =
         (if closes s (scale p) (vy gestureState)
          then false else isVisible (state this))
    /\ onCloseCalls this' =
         (if closes s (scale p) (vy gestureState)
          then if onCloseIsFunction this
               then S (onCloseCalls this) else onCloseCalls this
          else onCloseCalls this)
    /\ ready this' p image
    /\ onCloseIsFunction this' = onCloseIsFunction this.
Proof.
  intros Hr s. subst s.
  pose proof Hr as [Hp Hi].
  rewrite (calcultateNextTranslate_ready _ _ _ _ p image Hr).
  unfold onGestureRelease, releasedScale, closes, isTap.
  rewrite (getInitialScale_ready _ p), (getInitialTranslate_ready _ p) by exact Hp.
  fields.
  destruct (match event with Some _ => true | None => false end
            && negb (truthy (dx gestureState))
            && negb (truthy (dy gestureState))
            && scalesAreEqual (imageScale (state this)) (imageScaleValue this));
    cbn [andb];
    [ destruct (doubleTapTimer this) eqn:Ht | ];
    (rewrite (calcultateNextTranslate_ready _ _ _ _ p image);
     [| unfold ready, togglePanels; branches; fields; auto ]);
    do 2 eexists;
    (split; [reflexivity |]); (split; [reflexivity |]);
    unfold close, togglePanels, ready, orInitial; fields; cbv zeta;
    branches; rewrite ?Ht; fields;
    repeat split; try reflexivity; try discriminate; auto.
Qed.


End Release.

(* ================================================================== *)
(** ** The arithmetic of the gestures *)
(* ================================================================== *)

Lemma clampScale_bounds (imageInitialScale nextScale : number) :
  (imageInitialScale <=? SCALE_MAXIMUM)%num = true ->
  isNaN nextScale = false ->
  (imageInitialScale <=? clampScale imageInitialScale nextScale)%num = true
  /\ (clampScale imageInitialScale nextScale <=? SCALE_MAXIMUM)%num = true.
Proof.
  unfold clampScale, SCALE_MAXIMUM.
  destruct imageInitialScale as [| | | i], nextScale as [| | | n];
    intros Hi Hn; num_unfold; cbn in *; try discriminate;
    real_cases; cbn; real_cases; auto.
Qed.

Lemma truthy_nonzero (d : number) :
  truthy d = true -> d <> Fin 0 /\ d <> NaN.
Proof.
  destruct d as [| | | r]; cbn; intros H; try discriminate;
    split; try discriminate.
  intros E. injection E as ->. unfold Reqb in H.
  destruct (Req_dec_T 0 0); [discriminate | lra].
Qed.

Lemma getDistance_few (touches : list TouchType) :
  (length touches < 2)%nat -> getDistance touches = Fin 0.
Proof.
  destruct touches as [| a [| b rest]]; cbn; intros H; try reflexivity; lia.
Qed.

Lemma getDistance_two (ax ay bx by' : R) (rest : list TouchType) :
  getDistance ({| pageX := Fin ax; pageY := Fin ay |}
               :: {| pageX := Fin bx; pageY := Fin by' |} :: rest) =
  Fin (R_sqrt.sqrt ((ax - bx) * (ax - bx) + (ay - by') * (ay - by'))).
Proof.
  cbn. destruct (Rlt_dec _ 0) as [H | _].
  - exfalso. pose proof (Rle_0_sqr (Rabs (ax + - bx))).
    pose proof (Rle_0_sqr (Rabs (ay + - by'))). unfold Rsqr in *. lra.
  - do 2 f_equal.
    replace (Rabs (ax + - bx) * Rabs (ax + - bx)) with ((ax - bx) * (ax - bx)).
    2:{ fold (Rsqr (Rabs (ax + - bx))). rewrite <- Rsqr_abs. unfold Rsqr. ring. }
    replace (Rabs (ay + - by') * Rabs (ay + - by')) with ((ay - by') * (ay - by')).
    2:{ fold (Rsqr (Rabs (ay + - by'))). rewrite <- Rsqr_abs. unfold Rsqr. ring. }
    reflexivity.
Qed.


Section Pan.
Variable window : Dimensions.

(** On an axis where the scaled image covers the screen the translate is
    clamped between the two limits. *)
Lemma nextTranslateOn_clamped (axis : Axis) (x y dx dy : number)
  (s w h : R) (imageInitialScale : option number) :
  let imageSize := match axis with AxisX => w | AxisY => h end in
  let screenSize :=
    match axis with
    | AxisX => window_width window
    | AxisY => window_height window
    end in
  let next := match axis with AxisX => (x + dx)%num | AxisY => (y + dy)%num end in
  let t := nextTranslateOn window axis x y dx dy (Fin s) (Fin w) (Fin h)
             imageInitialScale in
  screenSize <= s * imageSize ->
  isNaN next = false ->
  (Fin (rightLimit screenSize s imageSize) <=? t)%num = true
  /\ (t <=? Fin (leftLimit s imageSize))%num = true
  /\ ((Fin (rightLimit screenSize s imageSize) <=? next)%num = true ->
      (next <=? Fin (leftLimit s imageSize))%num = true -> t = next).
Proof.
  intros imageSize screenSize next t Hcover Hnext. subst t.
  unfold nextTranslateOn, screenWidth, screenHeight.
  assert (Hlim : rightLimit screenSize s imageSize <= leftLimit s imageSize).
  { unfold rightLimit, leftLimit. lra. }
  unfold rightLimit, leftLimit in *.
  destruct axis; subst imageSize screenSize next; cbn [mul sub add neg div];
    (destruct (Req_dec_T 2 0); [lra |]);
    match goal with
    | |- context [(?a + ?b)%num] =>
        destruct (a + b)%num as [| | | nx] eqn:En; try discriminate
    end;
    num_unfold; cbn; real_cases; cbn; real_cases; auto;
    repeat split; intros; try discriminate; try reflexivity;
    try (f_equal; lra).
Qed.

(** A landscape or square image that is narrower than the screen on an
    axis is centred on it. *)
Lemma nextTranslateOn_landscape (axis : Axis) (x y dx dy : number)
  (s w h : R) (imageInitialScale : option number) :
  let imageSize := match axis with AxisX => w | AxisY => h end in
  let screenSize :=
    match axis with
    | AxisX => window_width window
    | AxisY => window_height window
    end in
  s * imageSize < screenSize ->
  h <= w ->
  centres (Fin screenSize) (Fin imageSize)
    (nextTranslateOn window axis x y dx dy (Fin s) (Fin w) (Fin h)
       imageInitialScale).
Proof.
  intros imageSize screenSize Hsmall Hshape.
  unfold nextTranslateOn, screenWidth, screenHeight, centres.
  destruct axis; subst imageSize screenSize;
    num_unfold; cbn; real_cases; cbn; real_cases; f_equal; lra.
Qed.

(** A portrait image that is narrower than the screen on an axis gets NaN:
    the initial scale read by destructuring is [undefined]. *)
Lemma nextTranslateOn_portrait (axis : Axis) (x y dx dy : number)
  (s w h : R) :
  let imageSize := match axis with AxisX => w | AxisY => h end in
  let screenSize :=
    match axis with
    | AxisX => window_width window
    | AxisY => window_height window
    end in
  s * imageSize < screenSize ->
  w < h ->
  nextTranslateOn window axis x y dx dy (Fin s) (Fin w) (Fin h) None = NaN.
Proof.
  intros imageSize screenSize Hsmall Hshape.
  unfold nextTranslateOn, screenWidth, screenHeight.
  destruct axis; subst imageSize screenSize;
    num_unfold; cbn; real_cases; cbn; real_cases; reflexivity.
Qed.

End Pan.

Section Clamp.
Variable window : Dimensions.

(** The value the clamp gives: the left limit for a position beyond it, the
    right limit for a position short of it, and the position otherwise. *)
Lemma nextTranslateOn_clamp (axis : Axis) (x y dx dy : number)
  (s w h : R) (imageInitialScale : option number) :
  let imageSize := match axis with AxisX => w | AxisY => h end in
  let screenSize :=
    match axis with
    | AxisX => window_width window
    | AxisY => window_height window
    end in
  let next := match axis with AxisX => (x + dx)%num | AxisY => (y + dy)%num end in
  let lo := Fin (rightLimit screenSize s imageSize) in
  let hi := Fin (leftLimit s imageSize) in
  screenSize <= s * imageSize ->
  nextTranslateOn window axis x y dx dy (Fin s) (Fin w) (Fin h)
    imageInitialScale
  = (if (next >? hi)%num then hi
     else if (next <? lo)%num then lo else next).
Proof.
  intros imageSize screenSize next lo hi Hcover.
  unfold nextTranslateOn, screenWidth, screenHeight.
  assert (Hlim : rightLimit screenSize s imageSize <= leftLimit s imageSize).
  { unfold rightLimit, leftLimit. lra. }
  subst lo hi. unfold rightLimit, leftLimit in *.
  destruct axis; subst imageSize screenSize next; cbn [mul sub add neg div];
    (destruct (Req_dec_T 2 0); [lra |]);
    match goal with
    | |- context [(?a + ?b)%num] =>
        destruct (a + b)%num as [| | | nx] eqn:En
    end;
    num_unfold; cbn; real_cases; cbn; real_cases; auto;
    try reflexivity; try (f_equal; lra).
Qed.

End Clamp.

(* ================================================================== *)
(** ** Mounting, scrolling and tapping *)
(* ================================================================== *)

Section Mounted.
Variable window : Dimensions.

(** A component shown on an existing image is ready, at the initial scale
    and translate of that image. *)
Lemma shown_ok (imgs : list ImageType) (index : Z) (image : ImageType) :
  (0 <= index)%Z ->
  nth_error imgs (Z.to_nat index) = Some image ->
  exists this,
    shown window imgs index = Ok this
    /\ ready this (getInitalParams window image) image
    /\ imageInitialParams this = map (getInitalParams window) imgs
    /\ images (state this) = imgs
    /\ imageIndex (state this) = Fin (IZR index)
    /\ imageScale (state this) = scale (getInitalParams window image)
    /\ imageScaleValue this = scale (getInitalParams window image)
    /\ imageTranslate (state this) = translate (getInitalParams window image)
    /\ isVisible (state this) = true
    /\ onCloseIsFunction this = true
    /\ onCloseCalls this = 0%nat
    /\ isScrolling this = false
    /\ doubleTapTimer this = false
    /\ initialTouches this = []
    /\ currentTouchesNum this = 0%nat.
Proof.
  intros Hz Hn.
  assert (Hg : get (map (getInitalParams window) imgs) (Fin (IZR index))
               = Some (getInitalParams window image)).
  { rewrite get_IZR by exact Hz. now rewrite nth_error_map, Hn. }
  unfold shown, constructor, onNextImagesReceived, getInitialScale,
    getInitialTranslate, indexOrCurrent, default_arg, ready.
  fields. eexists. split.
  { repeat (rewrite Hg; fields). reflexivity. }
  fields. rewrite !get_IZR by exact Hz. rewrite nth_error_map, Hn.
  repeat split; auto.
Qed.

(** [onNextImage] on an offset whose page has initial parameters. *)
Lemma onNextImage_moves (event : ScrollEvent) (this : Component)
  (p : InitialParams) :
  let next := nextImageIndex window event in
  (imageIndex (state this) !== next)%num && (next >=? Fin 0)%num = true ->
  get (imageInitialParams this) next = Some p ->
  exists this',
    onNextImage window event this = Ok this'
    /\ imageIndex (state this') = next
    /\ imageScale (state this') = scale p
    /\ imageTranslate (state this') = translate p
    /\ imageScaleValue this' = scale p
    /\ imageTranslateValue this' = translate p.
Proof.
  intros next Hc Hp. subst next.
  unfold onNextImage, getInitialScale, getInitialTranslate, indexOrCurrent.
  rewrite Hc. fields. rewrite Hp. fields.
  eexists. repeat split; reflexivity.
Qed.

Lemma onNextImage_stays (event : ScrollEvent) (this : Component) :
  (imageIndex (state this) === nextImageIndex window event)%num = true ->
  exists this',
    onNextImage window event this = Ok this'
    /\ state this' = state this
    /\ imageScaleValue this' = imageScaleValue this
    /\ imageTranslateValue this' = imageTranslateValue this.
Proof.
  intros Hc. unfold onNextImage, strict_ne. rewrite Hc. cbn [negb andb].
  eexists. repeat split; reflexivity.
Qed.

(** [Math.round] gives the integer nearest to its argument, halves going
    up. *)
Lemma round_nearest (q : R) :
  exists n : Z, round (Fin q) = Fin (IZR n) /\ IZR n - / 2 <= q < IZR n + / 2.
Proof.
  cbn [round]. eexists. split; [reflexivity |].
  pose proof (Zfloor_bound (q + / 2)). lra.
Qed.

(** [onNextImage] on an offset whose page has no initial parameters. *)
Lemma onNextImage_throws (event : ScrollEvent) (this : Component) :
  let next := nextImageIndex window event in
  (imageIndex (state this) !== next)%num && (next >=? Fin 0)%num = true ->
  get (imageInitialParams this) next = None ->
  onNextImage window event this = TypeError.
Proof.
  intros next Hc Hp. subst next.
  unfold onNextImage, getInitialScale, indexOrCurrent.
  rewrite Hc. fields. rewrite Hp. reflexivity.
Qed.

Lemma scalesAreEqual_refl (s : R) : scalesAreEqual (Fin s) (Fin s) = true.
Proof.
  unfold scalesAreEqual, SCALE_EPSILON. cbn. apply Rltb_true.
  replace (s + - s) with 0 by ring. rewrite Rabs_R0. lra.
Qed.

Lemma truthy_zero : truthy (Fin 0) = false.
Proof.
  cbn. apply negb_false_iff, Reqb_true. reflexivity.
Qed.

Lemma closes_still (s i : number) : closes s i (vy still) = false.
Proof.
  unfold closes, still, IMAGE_SPEED_FOR_CLOSE. cbn [vy abs].
  assert (H : (Fin (Rabs 0) >=? Fin (11 / 10))%num = false).
  { apply le_fin_false. rewrite Rabs_R0. lra. }
  rewrite H. apply andb_false_r.
Qed.

(** A tap on a component at rest: it arms the timer, or, the timer being
    armed, toggles the zoom; it closes nothing. *)
Lemma tap_runs (this : Component) (p : InitialParams) (image : ImageType)
  (s : R) :
  ready this p image ->
  imageScale (state this) = Fin s ->
  imageScaleValue this = Fin s ->
  let s' := if doubleTapTimer this
            then doubleTapScale (scale p) (Fin s) else Fin s in
  exists this',
    tap window this = Ok this'
    /\ ready this' p image
    /\ doubleTapTimer this' = negb (doubleTapTimer this)
    /\ imageScale (state this') = s'
    /\ imageScaleValue this' = s'
    /\ isVisible (state this') = isVisible (state this)
    /\ onCloseCalls this' = onCloseCalls this
    /\ onCloseIsFunction this' = onCloseIsFunction this.
Proof.
  intros Hr Hs Hv s'.
  assert (Htap : isTap (Some {| touches := [] |}) still this = true).
  { unfold isTap, still. cbn [dx dy].
    now rewrite truthy_zero, Hs, Hv, scalesAreEqual_refl. }
  unfold tap.
  destruct (onGestureRelease_runs window (Some {| touches := [] |}) still
              this p image Hr)
    as (this' & t & Hrun & _ & Hs' & _ & Hv' & _ & Ht' & Hvis & Hc & Hr' & Hf).
  unfold releasedScale in Hs', Hv', Hvis, Hc.
  rewrite Htap, Hv in *. cbn [andb] in *.
  rewrite closes_still in Hvis, Hc.
  exists this'. repeat split; auto; apply Hr'.
Qed.

(** A double tap on a component at rest toggles the zoom. *)
Lemma doubleTap_toggles (this : Component) (p : InitialParams)
  (image : ImageType) (s : R) :
  ready this p image ->
  doubleTapTimer this = false ->
  imageScale (state this) = Fin s ->
  imageScaleValue this = Fin s ->
  exists this',
    doubleTap window this = Ok this'
    /\ ready this' p image
    /\ doubleTapTimer this' = false
    /\ imageScale (state this') = doubleTapScale (scale p) (Fin s)
    /\ imageScaleValue this' = doubleTapScale (scale p) (Fin s)
    /\ isVisible (state this') = isVisible (state this)
    /\ onCloseCalls this' = onCloseCalls this
    /\ onCloseIsFunction this' = onCloseIsFunction this.
Proof.
  intros Hr Ht Hs Hv.
  destruct (tap_runs this p image s Hr Hs Hv)
    as (this1 & Hrun1 & Hr1 & Ht1 & Hs1 & Hv1 & Hvis1 & Hc1 & Hf1).
  rewrite Ht in Ht1, Hs1, Hv1. cbn [negb] in Ht1.
  destruct (tap_runs this1 p image s Hr1 Hs1 Hv1)
    as (this2 & Hrun2 & Hr2 & Ht2 & Hs2 & Hv2 & Hvis2 & Hc2 & Hf2).
  rewrite Ht1 in Ht2, Hs2, Hv2. cbn [negb] in Ht2.
  exists this2. unfold doubleTap. rewrite Hrun1. cbn [bind].
  repeat split; try congruence; apply Hr2.
Qed.

(** Two double taps on a component at rest at the finite scale [s]. *)
Lemma doubleTap_twice (this : Component) (p : InitialParams)
  (image : ImageType) (s : R) :
  ready this p image ->
  scale p = Fin s ->
  imageScale (state this) = scale p ->
  imageScaleValue this = scale p ->
  doubleTapTimer this = false ->
  exists this1 this2,
    doubleTap window this = Ok this1
    /\ imageScaleValue this1 = (scale p * SCALE_MAX_MULTIPLIER)%num
    /\ imageScale (state this1) = (scale p * SCALE_MAX_MULTIPLIER)%num
    /\ doubleTap window this1 = Ok this2
    /\ imageScaleValue this2 =
         doubleTapScale (scale p) (scale p * SCALE_MAX_MULTIPLIER)%num
    /\ imageScale (state this2) = imageScaleValue this2.
Proof.
  intros Hr Hp Hs Hv Ht. rewrite Hp in Hs, Hv.
  destruct (doubleTap_toggles this p image s Hr Ht Hs Hv)
    as (this1 & Hrun1 & Hr1 & Ht1 & Hs1 & Hv1 & _).
  assert (Hzoom : doubleTapScale (scale p) (Fin s)
                  = (scale p * SCALE_MAX_MULTIPLIER)%num).
  { unfold doubleTapScale. now rewrite Hp, scalesAreEqual_refl. }
  rewrite Hzoom in Hs1, Hv1.
  assert (Hfin : (scale p * SCALE_MAX_MULTIPLIER)%num = Fin (s * 3)).
  { now rewrite Hp. }
  rewrite Hfin in Hs1, Hv1.
  destruct (doubleTap_toggles this1 p image (s * 3) Hr1 Ht1 Hs1 Hv1)
    as (this2 & Hrun2 & _ & _ & Hs2 & Hv2 & _).
  exists this1, this2. rewrite Hfin. repeat split; auto. congruence.
Qed.

End Mounted.

(* ================================================================== *)
(** ** Worked examples *)
(* ================================================================== *)

Lemma calculateInitalTranslate_fin (window : Dimensions) (w h : R) :
  calculateInitalTranslate window (Some (Fin w)) (Some (Fin h)) =
  {| tx := Fin ((window_width window - w) / 2);
     ty := Fin ((window_height window - h) / 2) |}.
Proof.
  rewrite calculateInitalTranslate_eq.
  unfold screenWidth, screenHeight, default_arg. cbn [sub add neg].
  now rewrite !div_fin by lra.
Qed.

Lemma scalesAreEqual_fin (a b : R) :
  scalesAreEqual (Fin a) (Fin b) = Rltb (Rabs (a - b)) (1 / 100).
Proof. reflexivity. Qed.

(** The zoomed scale, 3 times the initial one, against the initial scale:
    apart for an initial scale of 0.0051 or more, within [SCALE_EPSILON]
    for a positive one of 0.0049 or less. *)
Lemma doubleTapScale_zoomed (s : R) :
  (51 / 10000 <= s ->
   doubleTapScale (Fin s) (Fin s * SCALE_MAX_MULTIPLIER)%num = Fin s)
  /\ (0 < s <= 49 / 10000 ->
      doubleTapScale (Fin s) (Fin s * SCALE_MAX_MULTIPLIER)%num
      = (Fin s * SCALE_MAX_MULTIPLIER * SCALE_MAX_MULTIPLIER)%num).
Proof.
  unfold doubleTapScale, SCALE_MAX_MULTIPLIER. cbn [mul].
  rewrite scalesAreEqual_fin.
  split; intros Hs.
  - assert (H : Rltb (Rabs (s - s * 3)) (1 / 100) = false).
    { apply Rltb_false. unfold Rabs. destruct (Rcase_abs (s - s * 3)); lra. }
    now rewrite H.
  - assert (H : Rltb (Rabs (s - s * 3)) (1 / 100) = true).
    { apply Rltb_true. unfold Rabs. destruct (Rcase_abs (s - s * 3)); lra. }
    now rewrite H.
Qed.

(** A 100 by 200 image shown on the 400 by 800 window. *)
Lemma shown_portrait :
  let p := {| scale := Fin 1;
              translate := {| tx := Fin ((400 - 100) / 2);
                              ty := Fin ((800 - 200) / 2) |} |} in
  exists this,
    shown phone [sized 100 200] 0 = Ok this
    /\ ready this p (sized 100 200)
    /\ imageScale (state this) = Fin 1
    /\ imageScaleValue this = Fin 1
    /\ imageTranslate (state this) = translate p
    /\ isVisible (state this) = true
    /\ onCloseIsFunction this = true
    /\ onCloseCalls this = 0%nat
    /\ isScrolling this = false
    /\ doubleTapTimer this = false
    /\ currentTouchesNum this = 0%nat.
Proof.
  intros p.
  assert (Hp : getInitalParams phone (sized 100 200) = p).
  { unfold getInitalParams, sized. cbn [width height].
    rewrite calculateInitalTranslate_fin.
    rewrite calculateInitialScale_small by (cbn; lra). reflexivity. }
  destruct (shown_ok phone [sized 100 200] 0 (sized 100 200))
    as (this & Hshown & Hr & _ & _ & _ & Hs & Hv & Ht & Hvis & Hf & Hc
        & Hsc & Htm & _ & Hn); [lia | reflexivity |].
  rewrite Hp in Hr, Hs, Hv, Ht.
  exists this. repeat split; auto; apply Hr.
Qed.

(** A 100000 by 100 panorama shown on the same window: its initial scale
    is 400 / 100000. *)
Lemma shown_panorama :
  exists this p,
    shown phone [sized 100000 100] 0 = Ok this
    /\ ready this p (sized 100000 100)
    /\ scale p = Fin (400 / 100000)
    /\ imageScale (state this) = Fin (400 / 100000)
    /\ imageScaleValue this = Fin (400 / 100000)
    /\ doubleTapTimer this = false.
Proof.
  assert (Hs : calculateInitialScale phone (Some (Fin 100000)) (Some (Fin 100))
               = Fin (400 / 100000)).
  { destruct (calculateInitialScale_big 400 800 ltac:(lra) ltac:(lra)
                100000 100 ltac:(lra) ltac:(lra) ltac:(lra)) as (Hm & _).
    unfold phone. rewrite Hm. rewrite !div_fin by lra.
    unfold Num.min.
    assert (Hle : (Fin (400 / 100000) <=? Fin (800 / 100))%num = true)
      by (apply le_fin; lra).
    now rewrite Hle. }
  destruct (shown_ok phone [sized 100000 100] 0 (sized 100000 100))
    as (this & Hshown & Hr & _ & _ & _ & Hsc & Hv & _ & _ & _ & _
        & _ & Htm & _); [lia | reflexivity |].
  exists this, (getInitalParams phone (sized 100000 100)).
  unfold getInitalParams, sized in Hsc, Hv |- *. cbn [scale width height] in *.
  rewrite Hs in Hsc, Hv. repeat split; auto; apply Hr.
Qed.


(* ================================================================== *)
(** ** The properties of the component *)
(* ================================================================== *)

(** C1. On a window of positive size, an image of non-negative size that
    exceeds the screen in width or in height gets as initial scale
    [screenWidth / imageWidth] when its ratio of height to width is below
    that of the screen and [screenHeight / imageHeight] otherwise.  When
    the two ratios differ, the quotient returned is at most the other one,
    so it is the smaller of the two; it is positive and at most 1.  An
    image no larger than the screen on both axes gets scale 1.  That the
    product of the scale and a side of the image is within the screen is
    not stated: the code rounds the quotient and the product, and the
    rounded product can exceed the side of the screen. *)
Theorem calculateInitialScale_quotient (sw sh w h : R) :
  0 < sw -> 0 < sh -> 0 <= w -> 0 <= h ->
  let window := mkWindow sw sh in
  let s := calculateInitialScale window (Some (Fin w)) (Some (Fin h)) in
  let screenRatio := (Fin sh / Fin sw)%num in
  let imageRatio := (Fin h / Fin w)%num in
  (sw < w \/ sh < h ->
     s = (if (screenRatio >? imageRatio)%num
          then Fin sw / Fin w else Fin sh / Fin h)%num
     /\ ((imageRatio <? screenRatio)%num = true ->
         (s <=? Fin sh / Fin h)%num = true)
     /\ ((screenRatio <? imageRatio)%num = true ->
         (s <=? Fin sw / Fin w)%num = true)
     /\ (Fin 0 <? s)%num = true
     /\ (s <=? Fin 1)%num = true)
  /\ (w <= sw /\ h <= sh -> s = Fin 1).
Proof.
  intros Hsw Hsh Hw Hh window s screenRatio imageRatio. split.
  - intros Hbig.
    destruct (calculateInitialScale_big sw sh Hsw Hsh w h Hw Hh Hbig)
      as (Hm & _).
    fold window in Hm. fold s in Hm.
    destruct (div_pos sw w Hsw Hw) as (Hpw & Hnw).
    destruct (div_pos sh h Hsh Hh) as (Hph & Hnh).
    destruct (min_le _ _ Hnw Hnh) as (Hlw & Hlh).
    split; [| split; [| split; [| split]]].
    + subst s window screenRatio imageRatio.
      unfold calculateInitialScale, screenWidth, screenHeight, default_arg.
      cbn [window_width window_height].
      assert (Hc : ((Fin w >? Fin sw)%num || (Fin h >? Fin sh)%num) = true).
      { unfold gt, lt. apply orb_true_iff. rewrite !Rltb_true. exact Hbig. }
      now rewrite Hc.
    + intros _. now rewrite Hm.
    + intros _. now rewrite Hm.
    + rewrite Hm. unfold Num.min.
      destruct (Fin sw / Fin w <=? Fin sh / Fin h)%num; assumption.
    + now apply calculateInitialScale_le_one.
  - intros [H1 H2]. now apply calculateInitialScale_small.
Qed.


(** C3. On an axis where the scaled image is at least as large as the
    screen, the translate returned by [calcultateNextTranslate] is the
    dragged position clamped to the interval from
    [screenSize - imageSize - leftLimit] to [leftLimit], with
    [leftLimit = (scale * imageSize - imageSize) / 2]: it is [leftLimit]
    when the dragged position is beyond it, the lower bound when the dragged
    position is short of that, and the dragged position itself otherwise;
    so it always lies between the two. *)
Theorem calcultateNextTranslate_clamps (window : Dimensions) (dx dy : number)
  (s w h : R) (this : Component) (p : InitialParams) :
  ready this p (sized w h) ->
  isNaN (tx (imageTranslate (state this)) + dx)%num = false ->
  isNaN (ty (imageTranslate (state this)) + dy)%num = false ->
  exists t,
    calcultateNextTranslate window dx dy (Fin s) this = Ok t
    /\ (window_width window <= s * w ->
        let lo := Fin (rightLimit (window_width window) s w) in
        let hi := Fin (leftLimit s w) in
        let next := (tx (imageTranslate (state this)) + dx)%num in
        tx t = (if (next >? hi)%num then hi
                else if (next <? lo)%num then lo else next)
        /\ (lo <=? tx t)%num = true /\ (tx t <=? hi)%num = true
        /\ ((lo <=? next)%num = true -> (next <=? hi)%num = true ->
            tx t = next))
    /\ (window_height window <= s * h ->
        let lo := Fin (rightLimit (window_height window) s h) in
        let hi := Fin (leftLimit s h) in
        let next := (ty (imageTranslate (state this)) + dy)%num in
        ty t = (if (next >? hi)%num then hi
                else if (next <? lo)%num then lo else next)
        /\ (lo <=? ty t)%num = true /\ (ty t <=? hi)%num = true
        /\ ((lo <=? next)%num = true -> (next <=? hi)%num = true ->
            ty t = next)).
Proof.
  intros Hr Hx Hy.
  rewrite (calcultateNextTranslate_ready window dx dy (Fin s) this p _ Hr).
  eexists. split; [reflexivity |]. cbn [tx ty sized width height to_number].
  split; intros Hcover; (split; [| cbv zeta]).
  - exact (nextTranslateOn_clamp window AxisX _ _ _ _ s w h None Hcover).
  - exact (nextTranslateOn_clamped window AxisX _ _ _ _ s w h None Hcover Hx).
  - exact (nextTranslateOn_clamp window AxisY _ _ _ _ s w h None Hcover).
  - exact (nextTranslateOn_clamped window AxisY _ _ _ _ s w h None Hcover Hy).
Qed.

(** C4. On a portrait image that is smaller than the screen
    [calcultateNextTranslate] returns NaN on both axes and not the
    translate that centres the image: a 100 by 200 image at scale 1 on a
    400 by 800 window. *)
Theorem calcultateNextTranslate_portrait_NaN :
  exists this,
    shown phone [sized 100 200] 0 = Ok this
    /\ imageScale (state this) = Fin 1
    /\ calcultateNextTranslate phone (Fin 0) (Fin 0) (Fin 1) this
       = Ok {| tx := NaN; ty := NaN |}
    /\ ~ centres (Fin 400) (Fin 100) NaN
    /\ ~ centres (Fin 800) (Fin 200) NaN.
Proof.
  destruct (shown_ok phone [sized 100 200] 0 (sized 100 200))
    as (this & Hshown & Hr & _ & _ & _ & Hs & _); [lia | reflexivity |].
  exists this. split; [exact Hshown |].
  split.
  { rewrite Hs. cbn [getInitalParams scale sized width height].
    apply calculateInitialScale_small; cbn; lra. }
  split.
  { rewrite (calcultateNextTranslate_ready phone _ _ _ this _ _ Hr).
    cbn [sized width height to_number].
    rewrite (nextTranslateOn_portrait phone AxisX), (nextTranslateOn_portrait phone AxisY);
      cbn; try lra. reflexivity. }
  split; unfold centres; rewrite !div_fin by lra; cbn; discriminate.
Qed.

(** C5. On a visible component whose [onClose] is a function, a release
    hides the overlay and calls [onClose] exactly when the scale it settles
    on is the initial scale of the image and the vertical speed is at least
    [IMAGE_SPEED_FOR_CLOSE]; a release that settles on another scale, and
    so any release of a zoomed image that is not a double tap, closes
    nothing. *)
Theorem onGestureRelease_closes_iff (window : Dimensions)
  (event : option NativeEvent) (gestureState : GestureState)
  (this : Component) (p : InitialParams) (image : ImageType) :
  ready this p image ->
  isVisible (state this) = true ->
  onCloseIsFunction this = true ->
  let s := releasedScale event gestureState this (scale p) in
  exists this',
    onGestureRelease window event gestureState this = Ok this'
    /\ imageScale (state this') = s
    /\ ((isVisible (state this') = false
         /\ onCloseCalls this' = S (onCloseCalls this))
        <-> ((s === scale p)%num = true
             /\ (abs (vy gestureState) >=? IMAGE_SPEED_FOR_CLOSE)%num = true))
    /\ ((s === scale p)%num = false ->
        isVisible (state this') = true
        /\ onCloseCalls this' = onCloseCalls this)
    /\ (isTap event gestureState this && doubleTapTimer this = false ->
        (imageScaleValue this === scale p)%num = false ->
        isVisible (state this') = true
        /\ onCloseCalls this' = onCloseCalls this).
Proof.
  intros Hr Hvis Hfun s.
  destruct (onGestureRelease_runs window event gestureState this p image Hr)
    as (this' & t & Hrun & _ & Hs & _ & _ & _ & _ & Hv & Hc & _).
  fold s in Hs, Hv, Hc. rewrite Hvis in Hv. rewrite Hfun in Hc.
  exists this'. split; [exact Hrun |]. split; [exact Hs |].
  assert (Hno : (s === scale p)%num = false ->
                isVisible (state this') = true
                /\ onCloseCalls this' = onCloseCalls this).
  { intros Hz. unfold closes in Hv, Hc. rewrite Hz in Hv, Hc. now split. }
  split; [| split; [exact Hno |]].
  - unfold closes in Hv, Hc.
    destruct ((s === scale p)%num
              && (abs (vy gestureState) >=? IMAGE_SPEED_FOR_CLOSE)%num) eqn:Hcl.
    + apply andb_true_iff in Hcl. tauto.
    + split.
      * intros [Hf _]. congruence.
      * intros [H1 H2]. rewrite H1, H2 in Hcl. discriminate.
  - intros Hnd Hz. apply Hno. subst s. unfold releasedScale.
    now rewrite Hnd.
Qed.

(** C6. The next index of [onNextImage] is [Math.round] of the horizontal
    offset over the screen width, the integer nearest to that quotient;
    when it differs from the current index, is not negative and addresses
    an image, the index, the scale and the translate of the state and the
    two animated values become that index and the initial scale and
    translate of that image; when it is the current index the state and the
    animated values stay as they are. *)
Theorem onNextImage_spec (window : Dimensions) (event : ScrollEvent)
  (this : Component) :
  let next := nextImageIndex window event in
  next = round (scrollOffset event / screenWidth window)%num
  /\ (forall q : R,
        (scrollOffset event / screenWidth window)%num = Fin q ->
        exists n : Z,
          next = Fin (IZR n) /\ IZR n - / 2 <= q < IZR n + / 2)
  /\ (forall p,
        (imageIndex (state this) !== next)%num && (next >=? Fin 0)%num = true ->
        get (imageInitialParams this) next = Some p ->
        exists this',
          onNextImage window event this = Ok this'
          /\ imageIndex (state this') = next
          /\ imageScale (state this') = scale p
          /\ imageTranslate (state this') = translate p
          /\ imageScaleValue this' = scale p
          /\ imageTranslateValue this' = translate p)
  /\ ((imageIndex (state this) === next)%num = true ->
      exists this',
        onNextImage window event this = Ok this'
        /\ state this' = state this
        /\ imageScaleValue this' = imageScaleValue this
        /\ imageTranslateValue this' = imageTranslateValue this).
Proof.
  intros next. split; [reflexivity |]. split; [| split].
  - intros q Hq. subst next. unfold nextImageIndex. rewrite Hq.
    apply round_nearest.
  - intros p Hc Hp. now apply onNextImage_moves.
  - intros Hc. now apply onNextImage_stays.
Qed.

(** C7. A release in place that arrives while the double-tap timer is
    pending toggles the zoom: from a scale within [SCALE_EPSILON] of the
    initial scale the target is 3 times the current scale, from any other
    scale it is the initial scale.  Two double taps in a row that start at
    the initial scale come back to it when the initial scale is 0.0051 or
    more; when it is positive and 0.0049 or less, the zoomed scale is
    itself within [SCALE_EPSILON] of the initial one and the second double
    tap zooms again, to 9 times the initial scale. *)
Theorem onGestureRelease_double_tap (window : Dimensions) (this : Component)
  (p : InitialParams) (image : ImageType) :
  ready this p image ->
  (forall event gestureState,
     dx gestureState = Fin 0 -> dy gestureState = Fin 0 ->
     scalesAreEqual (imageScale (state this)) (imageScaleValue this) = true ->
     doubleTapTimer this = true ->
     exists this',
       onGestureRelease window (Some event) gestureState this = Ok this'
       /\ imageScaleValue this' =
            (if scalesAreEqual (scale p) (imageScaleValue this)
             then (imageScaleValue this * SCALE_MAX_MULTIPLIER)%num
             else scale p)
       /\ imageScale (state this') = imageScaleValue this'
       /\ doubleTapTimer this' = false)
  /\ (forall s : R,
        scale p = Fin s ->
        imageScale (state this) = scale p ->
        imageScaleValue this = scale p ->
        doubleTapTimer this = false ->
        exists this1 this2,
          doubleTap window this = Ok this1
          /\ imageScaleValue this1 = (scale p * SCALE_MAX_MULTIPLIER)%num
          /\ imageScale (state this1) = (scale p * SCALE_MAX_MULTIPLIER)%num
          /\ doubleTap window this1 = Ok this2
          /\ imageScale (state this2) = imageScaleValue this2
          /\ (51 / 10000 <= s -> imageScaleValue this2 = scale p)
          /\ (0 < s <= 49 / 10000 ->
              imageScaleValue this2 =
                (scale p * SCALE_MAX_MULTIPLIER * SCALE_MAX_MULTIPLIER)%num
              /\ imageScaleValue this2 <> scale p)).
Proof.
  intros Hr. split.
  - intros event gestureState Hdx Hdy Heq Ht.
    destruct (onGestureRelease_runs window (Some event) gestureState this
                p image Hr)
      as (this' & t & Hrun & _ & Hs & _ & Hv & _ & Htimer & _).
    assert (Htap : isTap (Some event) gestureState this = true).
    { unfold isTap. now rewrite Hdx, Hdy, truthy_zero, Heq. }
    unfold releasedScale in Hs, Hv. rewrite Htap, Ht in Hs, Hv, Htimer.
    cbn [andb negb] in Hs, Hv, Htimer.
    exists this'. split; [exact Hrun |].
    split; [exact Hv |]. split; [congruence | exact Htimer].
  - intros s Hp Hs Hv Ht.
    destruct (doubleTap_twice window this p image s Hr Hp Hs Hv Ht)
      as (this1 & this2 & Hrun1 & Hv1 & Hs1 & Hrun2 & Hv2 & Hs2).
    exists this1, this2.
    do 5 (split; [assumption |]).
    destruct (doubleTapScale_zoomed s) as (Hfar & Hnear).
    rewrite Hp in Hv2 |- *. split.
    + intros Hbig. rewrite Hv2. now apply Hfar.
    + intros Hsmall. rewrite Hv2, (Hnear Hsmall). split; [reflexivity |].
      unfold SCALE_MAX_MULTIPLIER. cbn [mul]. intros E. injection E as E. lra.
Qed.

(** C8. The two branches of [calculateInitalTranslate] compute the same
    value: whatever the width and the height, the result is
    [(screenWidth - imageWidth) / 2] and [(screenHeight - imageHeight) / 2],
    which centres an image of finite size on both axes. *)
Theorem calculateInitalTranslate_centres (window : Dimensions) (w h : R) :
  (forall imageWidth imageHeight : option number,
     calculateInitalTranslate window imageWidth imageHeight =
     {| tx := ((screenWidth window - default_arg imageWidth (Fin 0))
               / Fin 2)%num;
        ty := ((screenHeight window - default_arg imageHeight (Fin 0))
               / Fin 2)%num |})
  /\ (forall (screenSize : R) (imageSize : number),
        ((Fin screenSize - imageSize) / Fin 2)%num
        = (Fin screenSize / Fin 2 - imageSize / Fin 2)%num)
  /\ calculateInitalTranslate window (Some (Fin w)) (Some (Fin h)) =
     {| tx := Fin ((window_width window - w) / 2);
        ty := Fin ((window_height window - h) / 2) |}
  /\ centres (screenWidth window) (Fin w)
       (tx (calculateInitalTranslate window (Some (Fin w)) (Some (Fin h))))
  /\ centres (screenHeight window) (Fin h)
       (ty (calculateInitalTranslate window (Some (Fin w)) (Some (Fin h)))).
Proof.
  split; [apply calculateInitalTranslate_eq |].
  split; [intros; symmetry; apply half_sub |].
  rewrite calculateInitalTranslate_eq.
  unfold centres, screenWidth, screenHeight, default_arg. cbn [tx ty sub add neg].
  rewrite !div_fin by lra. cbn [add].
  repeat split; f_equal; unfold Rminus; field.
Qed.

(** C9. [getDistance] is 0 on fewer than two touches, and [onGestureMove]
    on a ready component returns; when the initial distance is 0 or the
    event has fewer than two touches it leaves the animated scale and the
    touch count as they were, so the scale is only ever computed from an
    initial distance that is neither 0 nor NaN. *)
Theorem getDistance_guards_pinch (window : Dimensions) (event : NativeEvent)
  (gestureState : GestureState) (this : Component) (p : InitialParams)
  (image : ImageType) :
  ready this p image ->
  (forall touches : list TouchType,
     (length touches < 2)%nat -> getDistance touches = Fin 0)
  /\ exists this',
       onGestureMove window event gestureState this = Ok this'
       /\ (truthy (getDistance (initialTouches this')) = false
           \/ (length (touches event) < 2)%nat ->
           imageScaleValue this' = imageScaleValue this
           /\ currentTouchesNum this' = currentTouchesNum this)
       /\ (imageScaleValue this' <> imageScaleValue this ->
           getDistance (initialTouches this') <> Fin 0
           /\ getDistance (initialTouches this') <> NaN
           /\ (2 <= length (touches event))%nat).
Proof.
  intros Hr. split; [exact getDistance_few |].
  destruct (isScrolling this) eqn:Hs.
  - exists this. unfold onGestureMove. rewrite Hs.
    split; [reflexivity |]. split; [auto |]. intros H. now elim H.
  - destruct (onGestureMove_runs window event gestureState this p image Hs Hr)
      as (this' & Hrun & Hit & Hcase).
    exists this'. split; [exact Hrun |]. rewrite Hit.
    destruct (truthy (getDistance (movedInitialTouches event this))) eqn:Hd;
      cbn [negb] in Hcase.
    + destruct (Nat.ltb (length (touches event)) 2) eqn:Hl.
      * split; [auto |]. intros H. now elim H; apply Hcase.
      * apply Nat.ltb_ge in Hl. split.
        -- intros [H | H]; [discriminate | lia].
        -- intros _. destruct (truthy_nonzero _ Hd). auto.
    + split; [auto |]. intros H. now elim H; apply Hcase.
Qed.


(* ================================================================== *)
(** ** Instances of the properties *)
(* ================================================================== *)

(** A 530 by 100 image on the 400 by 800 window: the scale is 400 / 530,
    which is below 800 / 100. *)
Lemma calculateInitialScale_quotient_witness :
  0 < 400 /\ 0 < 800 /\ 400 < 530
  /\ (let s := calculateInitialScale phone (Some (Fin 530)) (Some (Fin 100)) in
      s = Fin (400 / 530)
      /\ (s <=? Fin 800 / Fin 100)%num = true
      /\ (Fin 0 <? s)%num = true
      /\ (s <=? Fin 1)%num = true).
Proof.
  split; [lra |]. split; [lra |]. split; [lra |].
  destruct (calculateInitialScale_quotient 400 800 530 100) as (Hbig & _);
    try lra.
  destruct Hbig as (Hif & Hwide & _ & Hp & Hl); [lra |].
  assert (Hc : (Fin 100 / Fin 530 <? Fin 800 / Fin 400)%num = true).
  { rewrite !div_fin by lra. apply Rltb_true. lra. }
  cbv zeta. unfold phone. split; [| split; [now apply Hwide | split; assumption]].
  rewrite Hif. unfold gt. rewrite Hc. now rewrite div_fin by lra.
Defined.


(** The portrait image zoomed 5 times, dragged 850 to the right and 1000
    up, beyond both limits: the translate is the left limit 200 on x and
    the lower bound 200 on y. *)
Lemma calcultateNextTranslate_clamps_witness :
  exists this t,
    shown phone [sized 100 200] 0 = Ok this
    /\ imageTranslate (state this) = {| tx := Fin ((400 - 100) / 2);
                                        ty := Fin ((800 - 200) / 2) |}
    /\ calcultateNextTranslate phone (Fin 850) (Fin (-1000)) (Fin 5) this
       = Ok t
    /\ tx t = Fin (leftLimit 5 100)
    /\ ty t = Fin (rightLimit 800 5 200)
    /\ leftLimit 5 100 = 200 /\ rightLimit 800 5 200 = 200.
Proof.
  destruct shown_portrait
    as (this & Hshown & Hr & _ & _ & Ht & _).
  destruct (calcultateNextTranslate_clamps phone (Fin 850) (Fin (-1000))
              5 100 200 this _ Hr)
    as (t & Hrun & Hx & Hy).
  - rewrite Ht. reflexivity.
  - rewrite Ht. reflexivity.
  - exists this, t. split; [exact Hshown |]. split; [exact Ht |].
    split; [exact Hrun |].
    destruct Hx as (Hx & _); [cbn; lra |].
    destruct Hy as (Hy & _); [cbn; lra |].
    rewrite Ht in Hx, Hy. cbn [tx ty translate add] in Hx, Hy.
    assert (H1 : (Fin ((400 - 100) / 2 + 850) >? Fin (leftLimit 5 100))%num
                 = true).
    { apply Rltb_true. unfold leftLimit. lra. }
    assert (H2 : (Fin ((800 - 200) / 2 + -1000) >? Fin (leftLimit 5 200))%num
                 = false).
    { apply Rltb_false. unfold leftLimit. lra. }
    assert (H3 : (Fin ((800 - 200) / 2 + -1000)
                  <? Fin (rightLimit 800 5 200))%num = true).
    { apply Rltb_true. unfold rightLimit, leftLimit. lra. }
    cbn [phone window_width window_height] in Hx, Hy.
    rewrite H1 in Hx. rewrite H2, H3 in Hy.
    repeat split; auto; unfold rightLimit, leftLimit; lra.
Defined.

(** A downward flick on the portrait image at its initial scale. *)
Lemma onGestureRelease_closes_iff_witness :
  exists this this',
    shown phone [sized 100 200] 0 = Ok this
    /\ onGestureRelease phone (Some twoFingers) flick this = Ok this'
    /\ isVisible (state this') = false
    /\ onCloseCalls this' = 1%nat.
Proof.
  destruct shown_portrait
    as (this & Hshown & Hr & _ & Hv & _ & Hvis & Hf & Hc & _).
  destruct (onGestureRelease_closes_iff phone (Some twoFingers) flick this
              _ _ Hr Hvis Hf)
    as (this' & Hrun & _ & Hiff & _).
  exists this, this'. split; [exact Hshown |]. split; [exact Hrun |].
  rewrite <- Hc. apply Hiff.
  assert (Hn : isTap (Some twoFingers) flick this = false).
  { unfold isTap, flick. cbn [dx dy].
    assert (H120 : truthy (Fin 120) = true).
    { cbn. apply negb_true_iff, Reqb_false. lra. }
    rewrite H120. cbn [negb andb]. now rewrite andb_false_r. }
  unfold releasedScale. rewrite Hn, Hv. cbn [andb scale].
  split.
  - apply Reqb_true. reflexivity.
  - apply le_fin. cbn [vy flick]. rewrite Rabs_pos_eq; lra.
Defined.

(** Two double taps on the portrait image, whose initial scale is 1. *)
Lemma onGestureRelease_double_tap_witness :
  exists this this1 this2,
    shown phone [sized 100 200] 0 = Ok this
    /\ doubleTap phone this = Ok this1
    /\ imageScaleValue this1 = Fin (1 * 3)
    /\ doubleTap phone this1 = Ok this2
    /\ imageScaleValue this2 = Fin 1.
Proof.
  destruct shown_portrait
    as (this & Hshown & Hr & Hs & Hv & _ & _ & _ & _ & _ & Ht & _).
  destruct (onGestureRelease_double_tap phone this _ _ Hr) as (_ & H2).
  destruct (H2 1 eq_refl Hs Hv Ht)
    as (this1 & this2 & Hrun1 & Hv1 & _ & Hrun2 & _ & Hback & _).
  exists this, this1, this2.
  repeat split; auto. apply Hback. lra.
Defined.

(** A move with no touch on the portrait image. *)
Lemma getDistance_guards_pinch_witness :
  exists this this',
    shown phone [sized 100 200] 0 = Ok this
    /\ getDistance [] = Fin 0
    /\ onGestureMove phone {| touches := [] |} still this = Ok this'
    /\ imageScaleValue this' = imageScaleValue this.
Proof.
  destruct shown_portrait as (this & Hshown & Hr & _).
  destruct (getDistance_guards_pinch phone {| touches := [] |} still this
              _ _ Hr)
    as (Hfew & this' & Hrun & Hkeep & _).
  exists this, this'. split; [exact Hshown |].
  split; [apply Hfew; cbn; lia |]. split; [exact Hrun |].
  apply Hkeep. right. cbn. lia.
Defined.


(** A scroll by one screen width from the first of two images. *)
Lemma onNextImage_spec_witness :
  exists this this',
    shown phone [sized 100 200; sized 300 300] 0 = Ok this
    /\ onNextImage phone {| contentOffset := Some (Fin 400) |} this = Ok this'
    /\ imageIndex (state this') = Fin 1
    /\ imageScale (state this') = scale (getInitalParams phone (sized 300 300))
    /\ imageTranslate (state this')
       = translate (getInitalParams phone (sized 300 300))
    /\ imageTranslateValue this'
       = translate (getInitalParams phone (sized 300 300)).
Proof.
  destruct (shown_ok phone [sized 100 200; sized 300 300] 0 (sized 100 200))
    as (this & Hshown & _ & Hparams & _ & Hidx & _); [lia | reflexivity |].
  assert (Hnext : nextImageIndex phone {| contentOffset := Some (Fin 400) |}
                  = Fin 1).
  { unfold nextImageIndex, scrollOffset, screenWidth, phone.
    cbn [contentOffset window_width]. rewrite div_fin by lra. cbn [round].
    do 2 f_equal. apply Zfloor_eq. lra. }
  destruct (onNextImage_spec phone {| contentOffset := Some (Fin 400) |} this)
    as (_ & _ & Hmove & _).
  rewrite Hnext in Hmove.
  destruct (Hmove (getInitalParams phone (sized 300 300)))
    as (this' & Hrun & Hi & Hs & Ht & _ & Hv).
  - rewrite Hidx. apply andb_true_iff. split.
    + apply negb_true_iff, Reqb_false. lra.
    + apply le_fin. lra.
  - rewrite Hparams. rewrite (get_IZR _ 1) by lia. reflexivity.
  - exists this, this'. auto 10.
Defined.

Section Binary64.
Import Floats.

(** Against C1 as stated, on binary64.  The scale of the 530 by 100 image
    on the 400 by 800 window is the quotient 400 / 530 rounded, and its
    product with the width 530, rounded, is above 400 (by less than 2^-40):
    the scaled image does not fit the width of the screen, and the test
    [screenSize > scale * imageSize] of [calcultateNextTranslate] fails on
    the image at its initial scale.  On a window of 384 by 2560 / 3, a 432
    by 960 image has the ratio of the screen once the two are rounded, and
    the scale returned is [screenHeight / imageHeight], which is above
    [screenWidth / imageWidth]: it is not the smaller of the two. *)
Lemma scaled_width_exceeds_screen :
  (let s := F64.calculateInitialScale 400 800 530 100 in
   s = 400 / 530
   /\ (s * 530 <=? 400) = false
   /\ (400 <? s * 530) = true
   /\ (s * 530 - 400 <? 0x1p-40) = true)%float
  /\ (let s := F64.calculateInitialScale 384 (2560 / 3) 432 960 in
      s = 2560 / 3 / 960
      /\ (384 / 432 <? s) = true)%float.
Proof. vm_compute. repeat split. Qed.

End Binary64.

(** Against C6 as stated: with a single image, shown at index 0, a scroll
    offset of one screen width gives the index 1, which differs from the
    current index and is not negative; [onNextImage] then reads the initial
    parameters of an image that does not exist and throws, and no state is
    updated. *)
Lemma onNextImage_past_last_image_throws :
  exists this,
    shown phone [sized 100 200] 0 = Ok this
    /\ imageIndex (state this) = Fin 0
    /\ nextImageIndex phone (scrolledTo (Fin 400)) = Fin 1
    /\ (imageIndex (state this) !== Fin 1)%num && (Fin 1 >=? Fin 0)%num = true
    /\ onNextImage phone (scrolledTo (Fin 400)) this = TypeError.
Proof.
  destruct (shown_ok phone [sized 100 200] 0 (sized 100 200))
    as (this & Hshown & _ & Hparams & _ & Hidx & _); [lia | reflexivity |].
  assert (Hnext : nextImageIndex phone (scrolledTo (Fin 400)) = Fin 1).
  { unfold nextImageIndex, scrollOffset, screenWidth, phone, scrolledTo.
    cbn [contentOffset window_width]. rewrite div_fin by lra. cbn [round].
    do 2 f_equal. apply Zfloor_eq. lra. }
  assert (Hc : (imageIndex (state this) !== Fin 1)%num
               && (Fin 1 >=? Fin 0)%num = true).
  { rewrite Hidx. apply andb_true_iff. split.
    - apply negb_true_iff, Reqb_false. lra.
    - apply le_fin. lra. }
  exists this. do 4 (split; [assumption |]).
  apply onNextImage_throws.
  - now rewrite Hnext.
  - rewrite Hnext, Hparams, (get_IZR _ 1) by lia. reflexivity.
Qed.

(** Against C7 as stated: on the panorama, whose initial scale is 0.004,
    the scale 0.012 of the first double tap is within [SCALE_EPSILON] of the
    initial scale, so the second double tap zooms again, to 0.036. *)
Lemma double_tap_twice_leaves_initial_scale :
  exists this this1 this2,
    shown phone [sized 100000 100] 0 = Ok this
    /\ getInitialScale None this = Ok (Fin (400 / 100000))
    /\ imageScale (state this) = Fin (400 / 100000)
    /\ imageScaleValue this = Fin (400 / 100000)
    /\ doubleTap phone this = Ok this1
    /\ doubleTap phone this1 = Ok this2
    /\ getInitialScale None this2 = Ok (Fin (400 / 100000))
    /\ imageScaleValue this2 = Fin (400 / 100000 * 3 * 3)
    /\ imageScaleValue this2 <> Fin (400 / 100000).
Proof.
  destruct shown_panorama as (this & p & Hshown & Hr & Hp & Hs & Hv & Ht).
  destruct (doubleTap_toggles phone this p _ _ Hr Ht Hs Hv)
    as (this1 & Hrun1 & Hr1 & Ht1 & Hs1 & Hv1 & _).
  assert (Hzoom : doubleTapScale (scale p) (Fin (400 / 100000))
                  = Fin (400 / 100000 * 3)).
  { unfold doubleTapScale. rewrite Hp, scalesAreEqual_refl. reflexivity. }
  rewrite Hzoom in Hs1, Hv1.
  destruct (doubleTap_toggles phone this1 p _ _ Hr1 Ht1 Hs1 Hv1)
    as (this2 & Hrun2 & Hr2 & _ & _ & Hv2 & _).
  assert (Hagain : doubleTapScale (scale p) (Fin (400 / 100000 * 3))
                   = Fin (400 / 100000 * 3 * 3)).
  { unfold doubleTapScale. rewrite Hp, scalesAreEqual_fin.
    assert (Hnear : Rltb (Rabs (400 / 100000 - 400 / 100000 * 3)) (1 / 100)
                    = true).
    { apply Rltb_true. unfold Rabs.
      destruct (Rcase_abs (400 / 100000 - 400 / 100000 * 3)); lra. }
    rewrite Hnear. reflexivity. }
  rewrite Hagain in Hv2.
  exists this, this1, this2.
  repeat split; auto.
  - rewrite (getInitialScale_ready this p) by apply Hr. now rewrite Hp.
  - rewrite (getInitialScale_ready this2 p) by apply Hr2. now rewrite Hp.
  - rewrite Hv2. intros E. injection E as E. lra.
Qed.

(** Against C5 as stated: the portrait image zoomed 3 times by a double
    tap, then tapped once so that the timer is pending, then released in
    place with a vertical speed of 2.  The release is a double tap, which
    brings the scale back to the initial one, and the overlay closes. *)
Lemma zoomed_double_tap_closes :
  exists this this1 this2 this3,
    shown phone [sized 100 200] 0 = Ok this
    /\ doubleTap phone this = Ok this1
    /\ tap phone this1 = Ok this2
    /\ getInitialScale None this2 = Ok (Fin 1)
    /\ imageScaleValue this2 = Fin (1 * 3)
    /\ imageScale (state this2) = Fin (1 * 3)
    /\ doubleTapTimer this2 = true
    /\ isVisible (state this2) = true
    /\ onGestureRelease phone (Some {| touches := [] |}) flickInPlace this2
       = Ok this3
    /\ isVisible (state this3) = false
    /\ onCloseCalls this3 = 1%nat.
Proof.
  destruct shown_portrait
    as (this & Hshown & Hr & Hs & Hv & _ & Hvis & Hf & Hc & _ & Ht & _).
  destruct (doubleTap_toggles phone this _ _ 1 Hr Ht Hs Hv)
    as (this1 & Hrun1 & Hr1 & Ht1 & Hs1 & Hv1 & Hvis1 & Hc1 & Hf1).
  assert (Hzoom : doubleTapScale (Fin 1) (Fin 1) = Fin (1 * 3)).
  { unfold doubleTapScale. now rewrite scalesAreEqual_refl. }
  cbn [scale] in Hs1, Hv1. rewrite Hzoom in Hs1, Hv1.
  destruct (tap_runs phone this1 _ _ (1 * 3) Hr1 Hs1 Hv1)
    as (this2 & Hrun2 & Hr2 & Ht2 & Hs2 & Hv2 & Hvis2 & Hc2 & Hf2).
  rewrite Ht1 in Ht2, Hs2, Hv2. cbn [negb] in Ht2.
  destruct (onGestureRelease_runs phone (Some {| touches := [] |})
              flickInPlace this2 _ _ Hr2)
    as (this3 & t & Hrun3 & _ & _ & _ & _ & _ & _ & Hvis3 & Hc3 & _).
  assert (Htap : isTap (Some {| touches := [] |}) flickInPlace this2 = true).
  { unfold isTap, flickInPlace. cbn [dx dy].
    now rewrite truthy_zero, Hs2, Hv2, scalesAreEqual_refl. }
  assert (Hback : doubleTapScale (Fin 1) (Fin (1 * 3)) = Fin 1).
  { unfold doubleTapScale. rewrite scalesAreEqual_fin.
    assert (Hfar : Rltb (Rabs (1 - 1 * 3)) (1 / 100) = false).
    { apply Rltb_false. unfold Rabs. destruct (Rcase_abs (1 - 1 * 3)); lra. }
    now rewrite Hfar. }
  assert (Hcl : closes (Fin 1) (Fin 1) (vy flickInPlace) = true).
  { unfold closes, flickInPlace. cbn [vy abs]. apply andb_true_iff. split.
    - apply Reqb_true. reflexivity.
    - apply le_fin. rewrite Rabs_pos_eq; lra. }
  unfold releasedScale in Hvis3, Hc3.
  rewrite Htap, Ht2, Hv2 in Hvis3, Hc3. cbn [andb scale] in Hvis3, Hc3.
  rewrite Hback, Hcl in Hvis3, Hc3.
  exists this, this1, this2, this3.
  repeat split; auto.
  - now rewrite (getInitialScale_ready this2 _ (proj1 Hr2)).
  - congruence.
  - rewrite Hc3. replace (onCloseIsFunction this2) with true by congruence.
    congruence.
Qed.

(* ================================================================== *)
(** ** Further properties: pages and scrolling *)
(* ================================================================== *)

Lemma strict_eq_fin (a b : R) : (Fin a === Fin b)%num = Reqb a b.
Proof. reflexivity. Qed.

Lemma strict_eq_refl_fin (a : R) : (Fin a === Fin a)%num = true.
Proof. apply Reqb_true. reflexivity. Qed.

Lemma get_map {A B : Type} (f : A -> B) (l : list A) (i : number) :
  get (map f l) i = option_map f (get l i).
Proof.
  unfold get. destruct (to_index i) as [n |]; [| reflexivity].
  now rewrite nth_error_map.
Qed.

Lemma round_near (z : Z) (r : R) :
  IZR z - / 2 <= r < IZR z + / 2 -> round (Fin r) = Fin (IZR z).
Proof.
  intros H. cbn [round]. do 2 f_equal. apply Zfloor_eq. lra.
Qed.

Lemma rem_multiple (y : R) (z : Z) :
  0 < y -> rem (Fin (y * IZR z)) (Fin y) = Fin 0.
Proof.
  intros Hy. cbn [rem]. destruct (Req_dec_T y 0) as [E | _]; [lra |].
  f_equal.
  replace (y * IZR z / y) with (IZR z) by (field; lra).
  unfold Rtrunc. destruct (Rlt_dec (IZR z) 0).
  - unfold Zceil. rewrite ZfloorNZ. rewrite Z.opp_involutive. ring.
  - rewrite ZfloorZ. ring.
Qed.

Section Pages.
Variable window : Dimensions.
Hypothesis width_pos : 0 < window_width window.

(** Every offset within half a screen of the start of page [i] belongs to
    page [i]. *)
Lemma nextImageIndex_near (i : Z) (x : R) :
  IZR i * window_width window - window_width window / 2 <= x
    < IZR i * window_width window + window_width window / 2 ->
  nextImageIndex window (scrolledTo (Fin x)) = Fin (IZR i).
Proof.
  intros Hx. unfold nextImageIndex, scrollOffset, scrolledTo, screenWidth.
  cbn [contentOffset]. rewrite div_fin by lra. apply round_near.
  assert (Hq : x / window_width window * window_width window = x)
    by (field; lra).
  set (q := x / window_width window) in *. clearbody q. nra.
Qed.

Lemma itemOffset_fin (data : list ImageType) (i : Z) :
  itemOffset (getItemLayout window data (Fin (IZR i)))
  = Fin (window_width window * IZR i).
Proof. reflexivity. Qed.

End Pages.

Section Scrolling.
Variable window : Dimensions.

Lemma onNextImage_outcome (event : ScrollEvent) (this : Component) :
  let next := nextImageIndex window event in
  let moved :=
    (imageIndex (state this) !== next)%num && (next >=? Fin 0)%num in
  let this0 :=
    set_isScrolling (rem (scrollOffset event) (screenWidth window) >? Fin 10)%num
      this in
  onNextImage window event this =
  if moved then
    match get (imageInitialParams this) next with
    | Some p =>
        Ok (set_imageTranslateValue (translate p)
              (set_imageScaleValue (scale p)
                 (setState (fun s => set_imageTranslate (translate p)
                                       (set_imageScale (scale p)
                                          (set_imageIndex next s))) this0)))
    | None => TypeError
    end
  else Ok this0.
Proof.
  intros next moved this0. unfold onNextImage.
  fold next. fold moved. destruct moved; [| reflexivity].
  unfold getInitialScale, getInitialTranslate, indexOrCurrent. fields.
  destruct (get (imageInitialParams this) next); reflexivity.
Qed.

End Scrolling.

(** X1. The page computed from the offset at which the list lays out item
    [i] is [i], and so is the page of every offset within 0.49 screen widths
    of it. *)
Theorem page_of_item_offset (window : Dimensions) (data : list ImageType)
  (i : Z) (x : R) :
  0 < window_width window ->
  let layout := getItemLayout window data (Fin (IZR i)) in
  nextImageIndex window (scrolledTo (itemOffset layout)) = itemIndex layout
  /\ (IZR i * window_width window - 49 / 100 * window_width window <= x
        <= IZR i * window_width window + 49 / 100 * window_width window ->
      nextImageIndex window (scrolledTo (Fin x)) = itemIndex layout).
Proof.
  intros Hw layout. subst layout. rewrite itemOffset_fin. cbn [itemIndex getItemLayout].
  split.
  - apply nextImageIndex_near; [exact Hw | nra].
  - intros Hx. apply nextImageIndex_near; [exact Hw | nra].
Qed.

(** X2. When the list comes to rest on the offset of item [i], an index
    that addresses an image, [onNextImage] returns with [i] as the index of
    the state; if [i] was not the index before, the scale and the translate
    of the state and the animated values are those of image [i], otherwise
    the state and the animated values are untouched.  When the screen width
    and the offset are whole numbers that binary64 holds exactly, the
    remainder of the offset by the width is 0 and [isScrolling] is
    cleared. *)
Theorem onNextImage_settles (window : Dimensions) (data : list ImageType)
  (i : Z) (this : Component) (p : InitialParams) :
  0 < window_width window ->
  (0 <= i)%Z ->
  get (imageInitialParams this) (Fin (IZR i)) = Some p ->
  let event :=
    scrolledTo (itemOffset (getItemLayout window data (Fin (IZR i)))) in
  exists this',
    onNextImage window event this = Ok this'
    /\ imageIndex (state this') = Fin (IZR i)
    /\ ((imageIndex (state this) === Fin (IZR i))%num = false ->
        imageScale (state this') = scale p
        /\ imageTranslate (state this') = translate p
        /\ imageScaleValue this' = scale p
        /\ imageTranslateValue this' = translate p)
    /\ ((imageIndex (state this) === Fin (IZR i))%num = true ->
        state this' = state this
        /\ imageScaleValue this' = imageScaleValue this
        /\ imageTranslateValue this' = imageTranslateValue this)
    /\ (forall k : Z,
          window_width window = IZR k ->
          (k * i <= 2 ^ 53)%Z ->
          isScrolling this' = false).
Proof.
  intros Hw Hi Hp event.
  assert (Hnext : nextImageIndex window event = Fin (IZR i)).
  { subst event. rewrite itemOffset_fin. apply nextImageIndex_near; [exact Hw | nra]. }
  assert (Hrem : (rem (scrollOffset event) (screenWidth window) >? Fin 10)%num
                 = false).
  { subst event. rewrite itemOffset_fin. unfold scrollOffset, scrolledTo, screenWidth.
    cbn [contentOffset]. rewrite rem_multiple by exact Hw.
    unfold gt. cbn [lt]. apply Rltb_false. lra. }
  rewrite onNextImage_outcome, Hnext, Hp.
  assert (Hge : (Fin (IZR i) >=? Fin 0)%num = true).
  { apply le_fin. apply IZR_le in Hi. exact Hi. }
  rewrite Hge, andb_true_r. unfold strict_ne.
  destruct (imageIndex (state this) === Fin (IZR i))%num eqn:Heq; cbn [negb].
  - eexists. split; [reflexivity |]. fields.
    repeat split; try discriminate; auto.
    destruct (imageIndex (state this)) as [| | | r]; try discriminate.
    rewrite strict_eq_fin in Heq. apply Reqb_true in Heq. now subst r.
  - eexists. split; [reflexivity |]. fields.
    repeat split; try discriminate; auto.
Qed.

(** X3. [onNextImage] throws exactly when the new index differs from the
    current one, is not negative and addresses no entry of
    [imageInitialParams]; otherwise it returns. *)
Theorem onNextImage_throws_iff (window : Dimensions) (event : ScrollEvent)
  (this : Component) :
  let next := nextImageIndex window event in
  onNextImage window event this = TypeError
  <-> ((imageIndex (state this) !== next)%num && (next >=? Fin 0)%num = true
       /\ get (imageInitialParams this) next = None).
Proof.
  intros next. rewrite onNextImage_outcome. fold next.
  destruct ((imageIndex (state this) !== next)%num && (next >=? Fin 0)%num).
  - destruct (get (imageInitialParams this) next); split;
      try discriminate; auto.
    intros [_ H]. discriminate.
  - split; [discriminate | intros [H _]; discriminate].
Qed.

(** X4. An offset more than half a screen to the left of the first page,
    as an overscroll gives, is ignored: [onNextImage] returns, and the
    state and the animated values stay as they are. *)
Theorem onNextImage_left_overscroll (window : Dimensions) (x : R)
  (this : Component) :
  0 < window_width window ->
  x < - (window_width window / 2) ->
  exists this',
    onNextImage window (scrolledTo (Fin x)) this = Ok this'
    /\ state this' = state this
    /\ imageScaleValue this' = imageScaleValue this
    /\ imageTranslateValue this' = imageTranslateValue this.
Proof.
  intros Hw Hx. rewrite onNextImage_outcome.
  assert (Hneg : (nextImageIndex window (scrolledTo (Fin x)) >=? Fin 0)%num
                 = false).
  { unfold nextImageIndex, scrollOffset, scrolledTo, screenWidth.
    cbn [contentOffset]. rewrite div_fin by lra. cbn [round].
    apply le_fin_false.
    assert (Hq : x / window_width window * window_width window = x)
      by (field; lra).
    set (q := x / window_width window) in *.
    assert (Hq' : q + / 2 < 0) by (clearbody q; nra).
    pose proof (Zfloor_bound (q + / 2)) as [Hlo _].
    apply IZR_lt. apply lt_IZR. clearbody q. lra. }
  rewrite Hneg, andb_false_r.
  eexists. split; [reflexivity |]. repeat split; reflexivity.
Qed.

(* ================================================================== *)
(** ** Further properties: mounting and image sizes *)
(* ================================================================== *)

(** X5. The constructor throws exactly when [imageIndex] addresses no
    image; with the default props, an empty list and index 0, it throws. *)
Theorem constructor_throws_iff (window : Dimensions)
  (images : list ImageType) (index : number) (visible onClose : bool) :
  (constructor window images index visible onClose = TypeError
   <-> get images index = None)
  /\ constructor window [] (Fin 0) visible onClose = TypeError.
Proof.
  assert (H : forall imgs,
             constructor window imgs index visible onClose = TypeError
             <-> get imgs index = None).
  { intros imgs.
    unfold constructor, getInitialScale, getInitialTranslate, indexOrCurrent.
    fields. rewrite !get_map.
    destruct (get imgs index) as [image |]; cbn [option_map]; fields;
      split; try discriminate; reflexivity. }
  split; [apply H |].
  unfold constructor, getInitialScale, indexOrCurrent. fields.
  rewrite (get_IZR _ 0) by lia. reflexivity.
Qed.

Lemma onNextImagesReceived_outcome (window : Dimensions)
  (received : list ImageType) (index : option number) (this : Component) :
  onNextImagesReceived window received index this =
  match get received (default_arg index (Fin 0)) with
  | None => TypeError
  | Some image =>
      let p := getInitalParams window image in
      Ok (set_imageTranslateValue (translate p)
            (set_imageScaleValue (scale p)
               (setState
                  (fun s => set_imageTranslate (translate p)
                              (set_imageScale (scale p)
                                 (set_imageIndex (default_arg index (Fin 0)) s)))
                  (mkComponent (onCloseIsFunction this) (onCloseCalls this)
                     (map (getInitalParams window) received)
                     (state this) (isScrolling this) (footerHeight this)
                     (initialTouches this) (currentTouchesNum this)
                     (doubleTapTimer this) (modalBackgroundOpacity this)
                     (headerTranslateValue this) (footerTranslateValue this)
                     (imageScaleValue this) (imageTranslateValue this)))))
  end.
Proof.
  unfold onNextImagesReceived. fields. rewrite get_map.
  destruct (get received (default_arg index (Fin 0))); reflexivity.
Qed.

(** X6. [onNextImagesReceived] throws exactly when the index, 0 when it is
    not given, addresses none of the images received; otherwise it
    recomputes the initial parameters from those images and puts the index,
    the scale and the translate of the state and both animated values at
    the index and at the initial scale and translate of the image, leaving
    [state.images] as it was. *)
Theorem onNextImagesReceived_spec (window : Dimensions)
  (received : list ImageType) (index : option number) (this : Component) :
  let imageIndex' := default_arg index (Fin 0) in
  (onNextImagesReceived window received index this = TypeError
   <-> get received imageIndex' = None)
  /\ (forall image,
        get received imageIndex' = Some image ->
        exists this',
          onNextImagesReceived window received index this = Ok this'
          /\ imageInitialParams this' = map (getInitalParams window) received
          /\ imageIndex (state this') = imageIndex'
          /\ imageScale (state this')
             = calculateInitialScale window (width image) (height image)
          /\ imageScaleValue this' = imageScale (state this')
          /\ imageTranslate (state this')
             = calculateInitalTranslate window (width image) (height image)
          /\ imageTranslateValue this' = imageTranslate (state this')
          /\ images (state this') = images (state this)).
Proof.
  intros imageIndex'. rewrite onNextImagesReceived_outcome. fold imageIndex'.
  split.
  - destruct (get received imageIndex'); split; try discriminate; reflexivity.
  - intros image Hg. rewrite Hg. eexists. split; [reflexivity |].
    fields. repeat split; reflexivity.
Qed.


Lemma mapWithIndex_Forall {A B : Type} (f : A -> nat -> B) (P : B -> Prop)
  (l : list A) (k : nat) :
  (forall n a, nth_error l n = Some a -> P (f a (k + n)%nat)) ->
  Forall P (mapWithIndex f l k).
Proof.
  revert k. induction l as [| a l IH]; intros k H; cbn; constructor.
  - specialize (H 0%nat a eq_refl). now rewrite Nat.add_0_r in H.
  - apply IH. intros n b Hn. specialize (H (S n) b Hn).
    now rewrite Nat.add_succ_r in H.
Qed.

Lemma setSizeForImages_some (nextImages : list FetchedSize)
  (this : Component) :
  nextImages <> [] ->
  setSizeForImages nextImages this =
  let sizedImages :=
    mapWithIndex
      (fun image index =>
         match sizeAt nextImages index with
         | Some nextImageSize =>
             {| width := Some (fetchedWidth nextImageSize);
                height := Some (fetchedHeight nextImageSize) |}
         | None => image
         end) (images (state this)) 0 in
  (sizedImages, setState (set_images sizedImages) this).
Proof.
  intros Hne. unfold setSizeForImages.
  destruct nextImages; [now elim Hne | reflexivity].
Qed.

Section Objects.
Import InPlace.

Lemma assign_length (r : nat) (image : ImageType) (store : list ImageType) :
  length (assign r image store) = length store.
Proof.
  revert r. induction store as [| o store IH]; intros [| r]; cbn; auto.
Qed.

Lemma assign_same (r : nat) (image d : ImageType) (store : list ImageType) :
  (r < length store)%nat -> nth r (assign r image store) d = image.
Proof.
  revert r. induction store as [| o store IH]; intros [| r] H; cbn in *;
    try lia; auto. apply IH. lia.
Qed.

Lemma assign_other (r r' : nat) (image d : ImageType)
  (store : list ImageType) :
  r <> r' -> nth r' (assign r image store) d = nth r' store d.
Proof.
  revert r r'. induction store as [| o store IH]; intros [| r] [| r'] H;
    cbn; auto; try congruence.
Qed.

Lemma sizeInPlace_length (nextImages : list FetchedSize) (refs : list nat)
  (index : nat) (store : list ImageType) :
  length (sizeInPlace nextImages refs index store) = length store.
Proof.
  revert index store. induction refs as [| r refs IH]; intros index store;
    cbn [sizeInPlace]; [reflexivity |].
  rewrite IH. destruct (find _ _); [apply assign_length | reflexivity].
Qed.

(** An object that the array does not list is left as it is. *)
Lemma sizeInPlace_other (nextImages : list FetchedSize) (refs : list nat)
  (index : nat) (store : list ImageType) (r : nat) (d : ImageType) :
  ~ In r refs ->
  nth r (sizeInPlace nextImages refs index store) d = nth r store d.
Proof.
  revert index store. induction refs as [| r0 refs IH]; intros index store H;
    cbn [sizeInPlace]; [reflexivity |].
  rewrite IH by (intros Hin; apply H; now right).
  destruct (find _ _); [| reflexivity].
  apply assign_other. intros E. apply H. now left.
Qed.

Lemma view_other (refs : list nat) (r : nat) (image : ImageType)
  (store : list ImageType) :
  ~ In r refs -> view (assign r image store) refs = view store refs.
Proof.
  intros H. unfold view. apply map_ext_in. intros r' Hin.
  apply assign_other. intros E. subst r'. contradiction.
Qed.

(** On distinct objects the assignments in place give what the map over
    records gives. *)
Lemma sizeInPlace_distinct (nextImages : list FetchedSize) (refs : list nat)
  (index : nat) (store : list ImageType) :
  NoDup refs ->
  Forall (fun r => (r < length store)%nat) refs ->
  view (sizeInPlace nextImages refs index store) refs
  = mapWithIndex
      (fun image index =>
         match find (fun nextImage =>
                       (fetchedIndex nextImage
                        === Fin (IZR (Z.of_nat index)))%num) nextImages with
         | Some nextImageSize =>
             {| width := Some (fetchedWidth nextImageSize);
                height := Some (fetchedHeight nextImageSize) |}
         | None => image
         end) (view store refs) index.
Proof.
  unfold view. revert index store. induction refs as [| r refs IH];
    intros index store Hnd Hall; [reflexivity |].
  inversion Hnd as [| ? ? Hnotin Hnd']; subst.
  inversion Hall as [| ? ? Hr Hall']; subst.
  cbn [sizeInPlace map mapWithIndex].
  rewrite sizeInPlace_other by exact Hnotin.
  rewrite IH; [| exact Hnd' |].
  - destruct (find _ nextImages) as [sz |]; [| reflexivity].
    rewrite assign_same by exact Hr.
    pose proof (view_other refs r
                  {| width := Some (fetchedWidth sz);
                     height := Some (fetchedHeight sz) |} store Hnotin) as Hv.
    unfold view in Hv. now rewrite Hv.
  - destruct (find _ nextImages); [| exact Hall'].
    rewrite assign_length. exact Hall'.
Qed.

End Objects.

(** The first fetched size for position 1, when the only size is for it. *)
Lemma find_size_for_second (size : FetchedSize) :
  fetchedIndex size = Fin 1 ->
  find (fun nextImage =>
          (fetchedIndex nextImage === Fin (IZR (Z.of_nat 0)))%num) [size]
  = None
  /\ find (fun nextImage =>
             (fetchedIndex nextImage === Fin (IZR (Z.of_nat 1)))%num) [size]
     = Some size.
Proof.
  intros Hi. cbn [find]. rewrite Hi. cbn [Z.of_nat Pos.of_succ_nat].
  assert (H0 : (Fin 1 === Fin 0)%num = false) by (apply Reqb_false; lra).
  assert (H1 : (Fin 1 === Fin 1)%num = true) by (apply Reqb_true; lra).
  now rewrite H0, H1.
Qed.

(** X7. [setSizeForImages] assigns to the image objects in place and
    returns the array of the objects it was given; an object that the array
    does not list is not touched.  When the objects of [state.images] are
    pairwise distinct, the images that the returned array and
    [state.images] show afterwards are those of the map over records: each
    position takes the first fetched size of its index and the others are
    as before.  When one object is listed at two positions, a size fetched
    for the second position shows at both, where the map over records
    changes the second only. *)
Theorem setSizeForImages_in_place (nextImages : list FetchedSize)
  (refs : list nat) (store : list ImageType) :
  let returned := fst (InPlace.setSizeForImages nextImages refs store) in
  let store' := snd (InPlace.setSizeForImages nextImages refs store) in
  (nextImages <> [] -> returned = refs)
  /\ (nextImages = [] -> returned = [] /\ store' = store)
  /\ length store' = length store
  /\ (forall (r : nat) (d : ImageType),
        ~ In r refs -> nth r store' d = nth r store d)
  /\ (forall this : Component,
        NoDup refs ->
        Forall (fun r => (r < length store)%nat) refs ->
        images (state this) = InPlace.view store refs ->
        InPlace.view store' returned = fst (setSizeForImages nextImages this)
        /\ InPlace.view store' refs
           = images (state (snd (setSizeForImages nextImages this))))
  /\ (forall (r : nat) (size : FetchedSize) (image : ImageType)
             (this : Component),
        (r < length store)%nat ->
        fetchedIndex size = Fin 1 ->
        images (state this) = [image; image] ->
        let sizedImage := {| width := Some (fetchedWidth size);
                             height := Some (fetchedHeight size) |} in
        InPlace.view (snd (InPlace.setSizeForImages [size] [r; r] store))
          [r; r]
        = [sizedImage; sizedImage]
        /\ fst (setSizeForImages [size] this) = [image; sizedImage]).
Proof.
  intros returned store'. subst returned store'.
  unfold InPlace.setSizeForImages.
  split; [| split; [| split; [| split; [| split]]]].
  - intros Hne. destruct nextImages; [now elim Hne | reflexivity].
  - intros ->. split; reflexivity.
  - destruct (Nat.eqb (length nextImages) 0); cbn [snd];
      [reflexivity | apply sizeInPlace_length].
  - intros r d Hr. destruct (Nat.eqb (length nextImages) 0); cbn [snd];
      [reflexivity | now apply sizeInPlace_other].
  - intros this Hnd Hall Himgs. unfold setSizeForImages.
    destruct (Nat.eqb (length nextImages) 0); cbn [fst snd].
    + split; [reflexivity | now rewrite Himgs].
    + cbn [state setState set_images images]. rewrite Himgs.
      split; now apply sizeInPlace_distinct.
  - intros r size image this Hr Hi Himgs. cbv zeta.
    destruct (find_size_for_second size Hi) as (H0 & H1).
    unfold setSizeForImages. cbn [length Nat.eqb fst snd].
    cbn [InPlace.sizeInPlace]. rewrite H0, H1. rewrite Himgs.
    cbn [mapWithIndex]. rewrite H0, H1.
    split; [| reflexivity].
    unfold InPlace.view. cbn [map]. now rewrite assign_same by exact Hr.
Qed.

(** X8. With no fetched size [setSizeForImages] returns the empty array and
    changes nothing, and [onNextImagesReceived] called on that result, as
    [componentWillReceiveProps] does, throws whatever the index. *)
Theorem setSizeForImages_empty_then_received (window : Dimensions)
  (index : option number) (this : Component) :
  setSizeForImages [] this = ([], this)
  /\ onNextImagesReceived window (fst (setSizeForImages [] this)) index
       (snd (setSizeForImages [] this)) = TypeError.
Proof.
  split; [reflexivity |].
  cbn [setSizeForImages length Nat.eqb fst snd].
  rewrite onNextImagesReceived_outcome.
  unfold get. now destruct (to_index _) as [[| n] |].
Qed.

Lemma filter_none {A : Type} (f : A -> bool) (l : list A) :
  Forall (fun a => f a = false) l -> filter f l = [].
Proof.
  induction 1 as [| a l Ha _ IH]; cbn; [reflexivity |]. now rewrite Ha.
Qed.

Lemma sizeAt_own (w h : number) (i : Z) :
  (0 <= i)%Z ->
  sizeAt [mkFetched w h (Fin (IZR i))] (Z.to_nat i)
  = Some (mkFetched w h (Fin (IZR i))).
Proof.
  intros Hi. unfold sizeAt. cbn [find fetchedIndex].
  rewrite Z2Nat.id by exact Hi. now rewrite strict_eq_refl_fin.
Qed.


(** X10. When every fetched size has a width and a height that are not 0
    and every image without size has a fetched size at its position, no
    image is without size after [setSizeForImages]. *)
Theorem setSizeForImages_fills (nextImages : list FetchedSize)
  (this : Component) :
  nextImages <> [] ->
  Forall (fun s => truthy (fetchedWidth s) = true
                   /\ truthy (fetchedHeight s) = true) nextImages ->
  (forall n image,
     nth_error (images (state this)) n = Some image ->
     hasSize image = false -> sizeAt nextImages n <> None) ->
  getImagesWithoutSize (fst (setSizeForImages nextImages this)) = [].
Proof.
  intros Hne Hall Hcover.
  rewrite setSizeForImages_some by exact Hne. cbv zeta. cbn [fst].
  unfold getImagesWithoutSize. apply filter_none.
  apply mapWithIndex_Forall. intros n image Hn. cbn [Nat.add].
  destruct (sizeAt nextImages n) as [s |] eqn:Hs.
  - apply find_some in Hs. destruct Hs as [Hin _].
    rewrite Forall_forall in Hall. destruct (Hall s Hin) as [Hw Hh].
    cbn [width height falsy]. now rewrite Hw, Hh.
  - destruct (falsy (width image) || falsy (height image)) eqn:Hf;
      [| reflexivity].
    exfalso. apply (Hcover n image Hn); [| exact Hs].
    unfold hasSize. now rewrite Hf.
Qed.

(** X11. The style of an image without size is [{opacity: 0}].  An image
    of known size gets its width and height and, when it is the current
    image, the animated translate and scale; any other image is drawn at
    the initial scale of its index, centred horizontally and half a point
    above the vertical centre (the translate of an image one point
    taller), and the call throws when that index has no initial
    parameters. *)
Theorem getImageStyle_spec (window : Dimensions) (image : ImageType)
  (index : number) (this : Component) :
  (hasSize image = false ->
   getImageStyle window image index this = Ok Transparent)
  /\ (forall w h : R,
        image = sized w h -> w <> 0 -> h <> 0 ->
        ((index === imageIndex (state this))%num = true ->
         getImageStyle window image index this =
         Ok (Styled (Fin w) (Fin h)
               [translateX (tx (imageTranslateValue this));
                translateY (ty (imageTranslateValue this));
                scaleBy (imageScaleValue this)]))
        /\ ((index === imageIndex (state this))%num = false ->
            forall q,
              get (imageInitialParams this) index = Some q ->
              getImageStyle window image index this =
              Ok (Styled (Fin w) (Fin h)
                    [translateX (Fin ((window_width window - w) / 2));
                     translateY (Fin ((window_height window - h) / 2 - / 2));
                     scaleBy (scale q)]))
        /\ ((index === imageIndex (state this))%num = false ->
            get (imageInitialParams this) index = None ->
            getImageStyle window image index this = TypeError)).
Proof.
  split.
  - unfold hasSize, getImageStyle. intros H.
    apply negb_false_iff in H. now rewrite H.
  - intros w h -> Hw Hh.
    assert (Hf : falsy (width (sized w h)) || falsy (height (sized w h))
                 = false).
    { cbn [sized width height falsy truthy]. rewrite !negb_involutive.
      apply orb_false_iff. split; apply Reqb_false; assumption. }
    unfold getImageStyle, getInitialScale, indexOrCurrent. rewrite Hf.
    cbn [sized width height to_number add].
    rewrite calculateInitalTranslate_fin.
    replace ((window_height window - (h + 1)) / 2)
      with ((window_height window - h) / 2 - / 2) by field.
    split; [| split].
    + intros E. rewrite E. reflexivity.
    + intros E q Hq. rewrite E, Hq. reflexivity.
    + intros E Hq. rewrite E, Hq. reflexivity.
Qed.

(* ================================================================== *)
(** ** Further properties: gestures *)
(* ================================================================== *)

Section Effects.
Variable window : Dimensions.

(** What a move changes besides the animated scale. *)
Lemma onGestureMove_effects (event : NativeEvent)
  (gestureState : GestureState) (this : Component) (p : InitialParams)
  (image : ImageType) :
  isScrolling this = false ->
  ready this p image ->
  exists this',
    onGestureMove window event gestureState this = Ok this'
    /\ ready this' p image
    /\ imageScale (state this') = imageScale (state this)
    /\ imageTranslate (state this') = imageTranslate (state this)
    /\ isVisible (state this') = isVisible (state this)
    /\ scrollEnabled (state this')
       = (abs (dy gestureState) <? FREEZE_SCROLL_DISTANCE)%num
    /\ tx (imageTranslateValue this')
       = (if (imageScale (state this) !== scale p)%num
          then (tx (imageTranslate (state this)) + dx gestureState)%num
          else tx (imageTranslateValue this))
    /\ modalBackgroundOpacity this'
       = (if scalesAreEqual (imageScale (state this)) (scale p)
             && (to_number (height image) * scale p <? screenHeight window)%num
          then if (abs (dy gestureState * BACKGROUND_OPACITY_MULTIPLIER)
                   >? Fin 1)%num
               then Fin 1
               else abs (dy gestureState * BACKGROUND_OPACITY_MULTIPLIER)%num
          else modalBackgroundOpacity this).
Proof.
  intros Hs Hr. pose proof Hr as [Hp Hi].
  unfold onGestureMove. rewrite Hs.
  destruct (Nat.eqb (currentTouchesNum this) 1
            && Nat.eqb (length (touches event)) 2);
    (rewrite (getInitialScale_ready _ p) by exact Hp);
    fields; rewrite Hi; fields; cbv zeta; unfold ready;
    branches; eexists; repeat split; try reflexivity; auto.
Qed.

(** What a release changes besides the scale and the translate. *)
Lemma onGestureRelease_effects (event : option NativeEvent)
  (gestureState : GestureState) (this : Component)
  (p : InitialParams) (image : ImageType) :
  ready this p image ->
  let s := releasedScale event gestureState this (scale p) in
  let toggled := isTap event gestureState this && doubleTapTimer this in
  exists this' t,
    onGestureRelease window event gestureState this = Ok this'
    /\ calcultateNextTranslate window (dx gestureState) (dy gestureState) s this
       = Ok t
    /\ scrollEnabled (state this')
       = (s === scale p)%num && (tx t === tx (translate p))%num
         && (ty t === ty (translate p))%num
    /\ modalBackgroundOpacity this'
       = (if (modalBackgroundOpacity this >? Fin 0)%num
          then Fin 0 else modalBackgroundOpacity this)
    /\ panelsVisible (state this')
       = (if toggled then (s === scale p)%num
          else panelsVisible (state this))
    /\ ty (headerTranslateValue this')
       = (if toggled
          then if (s === scale p)%num then Fin 0 else neg HEADER_HEIGHT
          else ty (headerTranslateValue this)).
Proof.
  intros Hr s toggled. subst s toggled.
  pose proof Hr as [Hp Hi].
  rewrite (calcultateNextTranslate_ready _ _ _ _ _ p image Hr).
  unfold onGestureRelease, releasedScale, closes, isTap.
  rewrite (getInitialScale_ready _ p), (getInitialTranslate_ready _ p)
    by exact Hp.
  fields.
  destruct (match event with Some _ => true | None => false end
            && negb (truthy (dx gestureState))
            && negb (truthy (dy gestureState))
            && scalesAreEqual (imageScale (state this)) (imageScaleValue this));
    cbn [andb];
    [ destruct (doubleTapTimer this) eqn:Ht | ];
    (rewrite (calcultateNextTranslate_ready _ _ _ _ _ p image);
     [| unfold ready, togglePanels; branches; fields; auto ]);
    do 2 eexists;
    (split; [reflexivity |]); (split; [reflexivity |]);
    unfold close, togglePanels; fields; cbv zeta;
    branches; rewrite ?Ht; fields;
    repeat split; try reflexivity; try discriminate; auto.
Qed.

End Effects.

Lemma getDistance_finite (l : list TouchType) :
  Forall finiteTouch l -> exists r, getDistance l = Fin r /\ 0 <= r.
Proof.
  intros H. destruct l as [| a [| b rest]].
  - exists 0. split; [reflexivity | lra].
  - exists 0. split; [reflexivity | lra].
  - inversion H as [| ? ? (ax & ay & ->) H']; subst.
    inversion H' as [| ? ? (bx & by' & ->) _]; subst.
    rewrite getDistance_two. eexists. split; [reflexivity |].
    apply sqrt_pos.
Qed.

Lemma zoomInRange_fin (i : R) (v : number) :
  zoomInRange (Fin i) v <-> exists x, v = Fin x /\ i <= x <= 5.
Proof.
  unfold zoomInRange, SCALE_MAXIMUM. split.
  - intros [H1 H2]. destruct v as [| | | x]; try discriminate.
    exists x. apply le_fin in H1. apply le_fin in H2. auto.
  - intros (x & -> & H). rewrite !le_fin. lra.
Qed.

Lemma nonneg_fin (v : number) :
  (Fin 0 <=? v)%num = true -> v = PInf \/ exists x, v = Fin x /\ 0 <= x.
Proof.
  destruct v as [| | | x]; intros H; try discriminate; auto.
  right. exists x. apply le_fin in H. auto.
Qed.

Lemma clampScale_in_range (i : R) (v : number) :
  i <= 5 -> isNaN v = false -> zoomInRange (Fin i) (clampScale (Fin i) v).
Proof.
  intros Hi Hv. apply clampScale_bounds; [apply le_fin; exact Hi | exact Hv].
Qed.

Lemma doubleTapScale_in_range (i : R) (v : number) :
  0 <= i <= 1 -> zoomInRange (Fin i) v ->
  zoomInRange (Fin i) (doubleTapScale (Fin i) v).
Proof.
  intros Hi Hv. apply zoomInRange_fin in Hv. destruct Hv as (x & -> & Hx).
  unfold doubleTapScale. rewrite scalesAreEqual_fin.
  destruct (Rltb (Rabs (i - x)) (1 / 100)) eqn:E.
  - apply Rltb_true in E. apply zoomInRange_fin.
    exists (x * 3). split; [reflexivity |].
    unfold Rabs in E. destruct (Rcase_abs (i - x)); lra.
  - apply zoomInRange_fin. exists i. split; [reflexivity | lra].
Qed.

Section Zoom.
Variable window : Dimensions.

(** X12. Moves keep the zoom in range: on a component whose touches are at
    finite positions and whose stored and animated scales lie between the
    initial scale of the image, not negative, and [SCALE_MAXIMUM],
    [onGestureMove] returns a component of which the same holds; the
    stored scale is not changed by a move. *)
Theorem onGestureMove_keeps_zoom_in_range (event : NativeEvent)
  (gestureState : GestureState) (this : Component) (p : InitialParams)
  (image : ImageType) :
  ready this p image ->
  Forall finiteTouch (touches event) ->
  Forall finiteTouch (initialTouches this) ->
  (Fin 0 <=? scale p)%num = true ->
  zoomInRange (scale p) (imageScale (state this)) ->
  zoomInRange (scale p) (imageScaleValue this) ->
  exists this',
    onGestureMove window event gestureState this = Ok this'
    /\ ready this' p image
    /\ Forall finiteTouch (initialTouches this')
    /\ imageScale (state this') = imageScale (state this)
    /\ zoomInRange (scale p) (imageScaleValue this').
Proof.
  intros Hr Hev Hit Hpos Hst Hval.
  destruct (isScrolling this) eqn:Hs.
  { exists this. unfold onGestureMove. rewrite Hs. auto. }
  destruct (onGestureMove_runs window event gestureState this p image Hs Hr)
    as (this' & Hrun & Hit' & Hcase).
  destruct (onGestureMove_effects window event gestureState this p image
              Hs Hr) as (this'' & Hrun' & Hr' & Hsc & _).
  rewrite Hrun in Hrun'. injection Hrun' as <-.
  exists this'. split; [exact Hrun |]. split; [exact Hr' |].
  assert (Hmoved : Forall finiteTouch (movedInitialTouches event this)).
  { unfold movedInitialTouches. now destruct (_ && _). }
  split; [now rewrite Hit' |]. split; [exact Hsc |].
  destruct (getDistance_finite _ Hmoved) as (d & Hd & _).
  destruct (getDistance_finite _ Hev) as (c & Hc & _).
  rewrite Hd, Hc in Hcase.
  destruct (truthy (Fin d)) eqn:Htr; cbn [negb] in Hcase.
  2:{ destruct Hcase as [-> _]. exact Hval. }
  destruct (Nat.ltb (length (touches event)) 2).
  { destruct Hcase as [-> _]. exact Hval. }
  destruct Hcase as [-> _].
  destruct (nonneg_fin _ Hpos) as [Hinf | (i & Hi & Hi0)].
  { rewrite Hinf in Hst. destruct Hst as [H1 H2].
    destruct (imageScale (state this)); discriminate. }
  rewrite Hi in *. apply zoomInRange_fin in Hst. destruct Hst as (k & -> & Hk).
  apply clampScale_in_range; [lra |].
  unfold getScale. destruct (truthy_nonzero _ Htr) as [Hd0 _].
  rewrite div_fin by (intros E; apply Hd0; now rewrite E). reflexivity.
Qed.

(** X13. Releases keep the zoom in range and commit it: when the initial
    scale of the image lies between 0 and 1 and the animated scale between
    the initial scale and [SCALE_MAXIMUM], [onGestureRelease] returns a
    component whose stored scale is the animated scale, again between the
    initial scale and [SCALE_MAXIMUM]. *)
Theorem onGestureRelease_keeps_zoom_in_range (event : option NativeEvent)
  (gestureState : GestureState) (this : Component) (p : InitialParams)
  (image : ImageType) :
  ready this p image ->
  (Fin 0 <=? scale p)%num = true ->
  (scale p <=? Fin 1)%num = true ->
  zoomInRange (scale p) (imageScaleValue this) ->
  exists this',
    onGestureRelease window event gestureState this = Ok this'
    /\ ready this' p image
    /\ imageScale (state this') = imageScaleValue this'
    /\ zoomInRange (scale p) (imageScaleValue this').
Proof.
  intros Hr Hpos Hone Hval.
  destruct (onGestureRelease_runs window event gestureState this p image Hr)
    as (this' & t & Hrun & _ & Hs & _ & Hv & _ & _ & _ & _ & Hr' & _).
  exists this'. split; [exact Hrun |]. split; [exact Hr' |].
  split; [congruence |]. rewrite Hv. unfold releasedScale.
  destruct (isTap event gestureState this && doubleTapTimer this);
    [| exact Hval].
  destruct (nonneg_fin _ Hpos) as [Hinf | (i & Hi & Hi0)].
  { rewrite Hinf in Hone. discriminate. }
  rewrite Hi in *. apply le_fin in Hone.
  apply doubleTapScale_in_range; [lra | exact Hval].
Qed.

End Zoom.

Section Snap.
Variable window : Dimensions.

(** At a scale at which a landscape or square image does not exceed the
    screen on an axis, the next translate on that axis is the centring
    one, wherever the image was dragged. *)
Lemma nextTranslateOn_at_fit (axis : Axis) (x y dx dy : number)
  (r w h : R) (imageInitialScale : option number) :
  let imageSize := match axis with AxisX => w | AxisY => h end in
  let screenSize :=
    match axis with
    | AxisX => window_width window
    | AxisY => window_height window
    end in
  let next := match axis with AxisX => (x + dx)%num | AxisY => (y + dy)%num end in
  h <= w ->
  r * imageSize <= screenSize ->
  isNaN next = false ->
  nextTranslateOn window axis x y dx dy (Fin r) (Fin w) (Fin h)
    imageInitialScale
  = Fin ((screenSize - imageSize) / 2).
Proof.
  intros imageSize screenSize next Hshape Hfit Hnext.
  unfold nextTranslateOn, screenWidth, screenHeight.
  destruct axis; subst imageSize screenSize next; cbn [mul sub add neg div];
    (destruct (Req_dec_T 2 0); [lra |]);
    match goal with
    | |- context [(?a + ?b)%num] =>
        destruct (a + b)%num as [| | | nx] eqn:En; try discriminate
    end;
    num_unfold; cbn; real_cases; cbn; real_cases; auto;
    try (f_equal; lra).
Qed.

End Snap.

(** X14. A release that settles on the initial scale snaps back a
    landscape or square image that is no larger than the screen, so that
    its initial scale is 1: whatever the drag, the stored translate is the
    initial translate of the image and scrolling is enabled again. *)
Theorem release_landscape_snaps (sw sh w h : R)
  (event : option NativeEvent) (gestureState : GestureState)
  (this : Component) :
  0 < sw -> 0 < sh -> 0 <= h -> h <= w -> w <= sw -> h <= sh ->
  let window := mkWindow sw sh in
  let p := getInitalParams window (sized w h) in
  ready this p (sized w h) ->
  releasedScale event gestureState this (scale p) = scale p ->
  isNaN (tx (imageTranslate (state this)) + dx gestureState)%num = false ->
  isNaN (ty (imageTranslate (state this)) + dy gestureState)%num = false ->
  exists this',
    onGestureRelease window event gestureState this = Ok this'
    /\ scale p = Fin 1
    /\ imageScale (state this') = scale p
    /\ imageTranslate (state this') = translate p
    /\ scrollEnabled (state this') = true.
Proof.
  intros Hsw Hsh Hh Hshape Hws Hhs window p Hr Hs Hx Hy.
  assert (Hsp : scale p = Fin 1).
  { subst p. unfold getInitalParams, sized. cbn [scale width height].
    apply calculateInitialScale_small; assumption. }
  assert (Htp : translate p = {| tx := Fin ((sw - w) / 2);
                                 ty := Fin ((sh - h) / 2) |}).
  { subst p. unfold getInitalParams, sized. cbn [translate width height].
    now rewrite calculateInitalTranslate_fin. }
  destruct (onGestureRelease_runs window event gestureState this p _ Hr)
    as (this' & t & Hrun & Hnext & Hsc & Htr & _).
  destruct (onGestureRelease_effects window event gestureState this p _ Hr)
    as (this'' & t' & Hrun' & Hnext' & Hscroll & _).
  rewrite Hrun in Hrun'. injection Hrun' as <-.
  rewrite Hnext in Hnext'. injection Hnext' as <-.
  rewrite Hs in Hnext, Hsc, Hscroll.
  rewrite (calcultateNextTranslate_ready window _ _ _ this p _ Hr) in Hnext.
  cbn [sized width height to_number] in Hnext. rewrite Hsp in Hnext.
  rewrite (nextTranslateOn_at_fit window AxisX) in Hnext
    by (cbn [window_width window]; lra || assumption).
  rewrite (nextTranslateOn_at_fit window AxisY) in Hnext
    by (cbn [window_height window]; lra || assumption).
  injection Hnext as <-.
  cbn [window_width window_height window tx ty] in *.
  exists this'. split; [exact Hrun |]. split; [exact Hsp |].
  split; [exact Hsc |].
  rewrite Htr, Hscroll, Htp, Hsp. cbn [tx ty orInitial isNaN].
  rewrite !strict_eq_refl_fin. auto.
Qed.


Section Taps.
Variable window : Dimensions.

(** X16. A single tap on a component at rest whose timer is not pending
    arms the timer and leaves the panels as they are; when the timer
    fires, the panels are toggled, the header moves out of or back into
    view, the timer is cleared, and the scale and the visibility of the
    overlay are what they were. *)
Theorem single_tap_then_timeout (this : Component) (p : InitialParams)
  (image : ImageType) (s : R) :
  ready this p image ->
  imageScale (state this) = Fin s ->
  imageScaleValue this = Fin s ->
  doubleTapTimer this = false ->
  exists this1,
    tap window this = Ok this1
    /\ doubleTapTimer this1 = true
    /\ panelsVisible (state this1) = panelsVisible (state this)
    /\ let this2 := doubleTapTimeout this1 in
       doubleTapTimer this2 = false
       /\ panelsVisible (state this2) = negb (panelsVisible (state this))
       /\ ty (headerTranslateValue this2)
          = (if panelsVisible (state this) then neg HEADER_HEIGHT else Fin 0)
       /\ imageScale (state this2) = Fin s
       /\ imageScaleValue this2 = Fin s
       /\ isVisible (state this2) = isVisible (state this).
Proof.
  intros Hr Hs Hv Ht.
  destruct (tap_runs window this p image s Hr Hs Hv)
    as (this1 & Hrun & _ & Ht1 & Hs1 & Hv1 & Hvis1 & _).
  destruct (onGestureRelease_effects window (Some {| touches := [] |}) still
              this p image Hr)
    as (this1' & t & Hrun' & _ & _ & _ & Hpan & _).
  unfold tap in Hrun. rewrite Hrun in Hrun'. injection Hrun' as <-.
  rewrite Ht in Ht1, Hs1, Hv1, Hpan. rewrite andb_false_r in Hpan.
  exists this1. split; [exact Hrun |]. split; [exact Ht1 |].
  split; [exact Hpan |].
  unfold doubleTapTimeout, togglePanels. cbv zeta. fields.
  destruct (footerHeight this1 >? Fin 0)%num; fields;
    rewrite Hpan; repeat split; auto;
    destruct (panelsVisible (state this)); reflexivity.
Qed.

(** X17. After a release that is a double tap the panels are visible
    exactly when the scale it settles on is the initial scale, and the
    header is in view exactly when the panels are visible. *)
Theorem double_tap_sets_panels (event : option NativeEvent)
  (gestureState : GestureState) (this : Component) (p : InitialParams)
  (image : ImageType) :
  ready this p image ->
  isTap event gestureState this = true ->
  doubleTapTimer this = true ->
  exists this',
    onGestureRelease window event gestureState this = Ok this'
    /\ imageScale (state this')
       = doubleTapScale (scale p) (imageScaleValue this)
    /\ panelsVisible (state this')
       = (imageScale (state this') === scale p)%num
    /\ ty (headerTranslateValue this')
       = (if panelsVisible (state this') then Fin 0 else neg HEADER_HEIGHT).
Proof.
  intros Hr Htap Ht.
  destruct (onGestureRelease_runs window event gestureState this p _ Hr)
    as (this' & t & Hrun & _ & Hsc & _).
  destruct (onGestureRelease_effects window event gestureState this p _ Hr)
    as (this'' & t' & Hrun' & _ & _ & _ & Hpan & Hhead).
  rewrite Hrun in Hrun'. injection Hrun' as <-.
  unfold releasedScale in *. rewrite Htap, Ht in *. cbn [andb] in *.
  exists this'. rewrite Hpan, Hhead, Hsc. auto.
Qed.

(** X18. Moves keep the opacity of the backdrop between 0 and 1, whatever
    the vertical drag that is not NaN. *)
Theorem onGestureMove_keeps_opacity_in_range (event : NativeEvent)
  (gestureState : GestureState) (this : Component) (p : InitialParams)
  (image : ImageType) :
  ready this p image ->
  isNaN (dy gestureState) = false ->
  opacityInRange (modalBackgroundOpacity this) ->
  exists this',
    onGestureMove window event gestureState this = Ok this'
    /\ opacityInRange (modalBackgroundOpacity this').
Proof.
  intros Hr Hdy Ho.
  destruct (isScrolling this) eqn:Hs.
  { exists this. unfold onGestureMove. rewrite Hs. auto. }
  destruct (onGestureMove_effects window event gestureState this p image
              Hs Hr) as (this' & Hrun & _ & _ & _ & _ & _ & _ & Hop).
  exists this'. split; [exact Hrun |]. rewrite Hop.
  destruct (_ && _); [| exact Ho].
  unfold opacityInRange, BACKGROUND_OPACITY_MULTIPLIER.
  destruct (dy gestureState) as [| | | d]; try discriminate; cbn;
    unfold scale_inf, sgn; real_cases; cbn;
    try (split; apply le_fin; lra).
  unfold gt. cbn [lt].
  destruct (Rltb 1 (Rabs (d * (3 / 1000)))) eqn:E.
  - split; apply le_fin; lra.
  - apply Rltb_false in E. pose proof (Rabs_pos (d * (3 / 1000))).
    split; apply le_fin; lra.
Qed.

(** X19. A release that does not close the overlay puts the opacity of
    the backdrop back to 0 when it was not negative, and leaves the overlay
    as visible as it was. *)
Theorem onGestureRelease_resets_opacity (event : option NativeEvent)
  (gestureState : GestureState) (this : Component) (p : InitialParams)
  (image : ImageType) :
  ready this p image ->
  (Fin 0 <=? modalBackgroundOpacity this)%num = true ->
  closes (releasedScale event gestureState this (scale p)) (scale p)
    (vy gestureState) = false ->
  exists this',
    onGestureRelease window event gestureState this = Ok this'
    /\ modalBackgroundOpacity this' = Fin 0
    /\ isVisible (state this') = isVisible (state this).
Proof.
  intros Hr Ho Hc.
  destruct (onGestureRelease_effects window event gestureState this p _ Hr)
    as (this' & t & Hrun & _ & _ & Hop & _).
  destruct (onGestureRelease_runs window event gestureState this p _ Hr)
    as (this'' & t' & Hrun' & _ & _ & _ & _ & _ & _ & Hvis & _).
  rewrite Hrun in Hrun'. injection Hrun' as <-. rewrite Hc in Hvis.
  exists this'. split; [exact Hrun |]. split; [| exact Hvis]. rewrite Hop.
  destruct (nonneg_fin _ Ho) as [-> | (x & -> & Hx)]; [reflexivity |].
  unfold gt. cbn [lt]. destruct (Rltb 0 x) eqn:E; [reflexivity |].
  apply Rltb_false in E. f_equal. lra.
Qed.

(** X20. While the list is scrolling a move changes nothing.  Otherwise it
    enables scrolling exactly when the vertical drag is shorter than
    [FREEZE_SCROLL_DISTANCE]; it leaves the horizontal animated translate
    alone when the stored scale is the initial scale, so that a horizontal
    drag goes to the list, and sets it to the stored translate plus the
    drag when the image is zoomed; the stored scale and translate are not
    changed by a move. *)
Theorem onGestureMove_pan (event : NativeEvent) (gestureState : GestureState)
  (this : Component) (p : InitialParams) (image : ImageType) :
  ready this p image ->
  (isScrolling this = true ->
   onGestureMove window event gestureState this = Ok this)
  /\ (isScrolling this = false ->
      exists this',
        onGestureMove window event gestureState this = Ok this'
        /\ scrollEnabled (state this')
           = (abs (dy gestureState) <? FREEZE_SCROLL_DISTANCE)%num
        /\ ((imageScale (state this) === scale p)%num = true ->
            tx (imageTranslateValue this') = tx (imageTranslateValue this))
        /\ ((imageScale (state this) === scale p)%num = false ->
            tx (imageTranslateValue this')
            = (tx (imageTranslate (state this)) + dx gestureState)%num)
        /\ imageScale (state this') = imageScale (state this)
        /\ imageTranslate (state this') = imageTranslate (state this)).
Proof.
  intros Hr. split.
  - intros Hs. unfold onGestureMove. now rewrite Hs.
  - intros Hs.
    destruct (onGestureMove_effects window event gestureState this p image
                Hs Hr) as (this' & Hrun & _ & Hsc & Htr & _ & Hen & Hx & _).
    exists this'. split; [exact Hrun |]. split; [exact Hen |].
    unfold strict_ne in Hx.
    split; [| split]; [| | auto]; intros E; rewrite E in Hx; exact Hx.
Qed.

End Taps.

(** X21. The scale a pinch sets does not decrease when the fingers are
    further apart: for finite distances, a positive initial distance, a
    stored scale that is not negative and an initial scale of at most 5,
    the clamped scale is monotone in the current distance. *)
Theorem pinch_scale_monotone (i k d c1 c2 : R) :
  i <= 5 -> 0 <= k -> 0 < d -> c1 <= c2 ->
  (clampScale (Fin i) (getScale (Fin c1) (Fin d) * Fin k)
   <=? clampScale (Fin i) (getScale (Fin c2) (Fin d) * Fin k))%num = true.
Proof.
  intros Hi Hk Hd Hc. unfold getScale, SCALE_MULTIPLIER.
  rewrite !div_fin by lra. cbn [mul].
  assert (Hm : c1 / d * (12 / 10) * k <= c2 / d * (12 / 10) * k).
  { apply Rmult_le_compat_r; [exact Hk |].
    apply Rmult_le_compat_r; [lra |].
    apply Rmult_le_compat_r; [| exact Hc].
    apply Rlt_le, Rinv_0_lt_compat, Hd. }
  set (n1 := c1 / d * (12 / 10) * k) in *.
  set (n2 := c2 / d * (12 / 10) * k) in *. clearbody n1 n2.
  unfold clampScale, SCALE_MAXIMUM, gt. cbn [lt].
  destruct (Rltb n1 i) eqn:E1, (Rltb n2 i) eqn:E2,
           (Rltb 5 n1) eqn:E3, (Rltb 5 n2) eqn:E4;
    repeat match goal with
      | H : Rltb _ _ = true |- _ => apply Rltb_true in H
      | H : Rltb _ _ = false |- _ => apply Rltb_false in H
      end;
    apply le_fin; lra.
Qed.

(** X22. The distance of two touches at finite positions does not depend
    on their order nor on further touches, is not negative, and is 0, so
    that a pinch is ignored, exactly when the two touches are at the same
    position. *)
Theorem getDistance_metric (ax ay bx by' : R) (rest : list TouchType) :
  let a := {| pageX := Fin ax; pageY := Fin ay |} in
  let b := {| pageX := Fin bx; pageY := Fin by' |} in
  getDistance (a :: b :: rest) = getDistance [b; a]
  /\ (Fin 0 <=? getDistance [a; b])%num = true
  /\ (truthy (getDistance [a; b]) = false <-> a = b).
Proof.
  intros a b. subst a b. rewrite !getDistance_two.
  set (q := (ax - bx) * (ax - bx) + (ay - by') * (ay - by')).
  pose proof (Rle_0_sqr (ax - bx)) as Hx.
  pose proof (Rle_0_sqr (ay - by')) as Hy. unfold Rsqr in Hx, Hy.
  assert (Hq : 0 <= q) by (subst q; lra).
  split; [| split].
  - subst q. apply f_equal, f_equal. ring.
  - apply le_fin. apply sqrt_pos.
  - cbn [truthy]. rewrite negb_false_iff, Reqb_true. split.
    + intros H. apply sqrt_eq_0 in H; [| exact Hq].
      subst q.
      assert (H1 : (ax - bx) * (ax - bx) = 0) by lra.
      assert (H2 : (ay - by') * (ay - by') = 0) by lra.
      apply Rmult_integral in H1. apply Rmult_integral in H2.
      assert (ax = bx) as -> by (destruct H1; lra).
      assert (ay = by') as -> by (destruct H2; lra).
      reflexivity.
    + intros E. injection E as -> ->. subst q.
      replace ((bx - bx) * (bx - bx) + (by' - by') * (by' - by')) with 0
        by ring.
      apply sqrt_0.
Qed.

(* ================================================================== *)
(** ** Instances of the further properties *)
(* ================================================================== *)

Lemma shown_rest (window : Dimensions) (imgs : list ImageType) (index : Z)
  (this : Component) :
  shown window imgs index = Ok this ->
  modalBackgroundOpacity this = Fin 0
  /\ panelsVisible (state this) = true
  /\ footerHeight this = Fin 0.
Proof.
  unfold shown, constructor, onNextImagesReceived, getInitialScale,
    getInitialTranslate, indexOrCurrent, default_arg.
  fields.
  destruct (get (map (getInitalParams window) imgs) (Fin (IZR index)));
    fields; [| discriminate].
  intros H. injection H as <-. auto.
Qed.

Lemma truthy_fin (r : R) : r <> 0 -> truthy (Fin r) = true.
Proof. intros H. cbn. now apply negb_true_iff, Reqb_false. Qed.


Lemma isTap_drag (event : option NativeEvent) (this : Component) :
  isTap event drag this = false.
Proof.
  unfold isTap, drag. cbn [dx dy]. rewrite (truthy_fin 50) by lra.
  cbn [negb]. now rewrite andb_false_r.
Qed.

Lemma closes_drag (s i : number) : closes s i (vy drag) = false.
Proof.
  unfold closes, drag, IMAGE_SPEED_FOR_CLOSE. cbn [vy abs].
  assert (H : (Fin (Rabs 0) >=? Fin (11 / 10))%num = false).
  { apply le_fin_false. rewrite Rabs_R0. lra. }
  rewrite H. apply andb_false_r.
Qed.

Lemma finiteTouch_two_fingers : Forall finiteTouch (touches twoFingers).
Proof.
  unfold twoFingers. cbn [touches].
  repeat constructor; eexists; eexists; reflexivity.
Qed.

(** Offset 900 on the 400 wide window is on page 2. *)
Lemma page_of_item_offset_witness :
  0 < 400
  /\ nextImageIndex phone (scrolledTo (Fin 900))
     = itemIndex (getItemLayout phone [] (Fin (IZR 2))).
Proof.
  split; [lra |].
  destruct (page_of_item_offset phone [] 2 900) as [_ H];
    [cbn; lra |]. apply H. cbn. lra.
Defined.

(** The list comes to rest on the second of two images. *)
Lemma onNextImage_settles_witness :
  exists this this',
    shown phone [sized 100 200; sized 300 300] 0 = Ok this
    /\ onNextImage phone
         (scrolledTo (itemOffset (getItemLayout phone [] (Fin (IZR 1))))) this
       = Ok this'
    /\ isScrolling this' = false
    /\ imageIndex (state this') = Fin (IZR 1)
    /\ imageScale (state this')
       = scale (getInitalParams phone (sized 300 300)).
Proof.
  destruct (shown_ok phone [sized 100 200; sized 300 300] 0 (sized 100 200))
    as (this & Hshown & _ & Hparams & _ & Hidx & _); [lia | reflexivity |].
  destruct (onNextImage_settles phone [] 1 this
              (getInitalParams phone (sized 300 300)))
    as (this' & Hrun & Hi & Hmoved & _ & Hsc).
  - cbn. lra.
  - lia.
  - rewrite Hparams, (get_IZR _ 1) by lia. reflexivity.
  - exists this, this'. split; [exact Hshown |]. split; [exact Hrun |].
    split; [apply (Hsc 400%Z); [reflexivity | vm_compute; discriminate] |].
    split; [exact Hi |].
    apply Hmoved. rewrite Hidx. apply Reqb_false. lra.
Defined.

(** An overscroll of 250 to the left of the first page. *)
Lemma onNextImage_left_overscroll_witness :
  exists this this',
    shown phone [sized 100 200] 0 = Ok this
    /\ onNextImage phone (scrolledTo (Fin (-250))) this = Ok this'
    /\ state this' = state this.
Proof.
  destruct shown_portrait as (this & Hshown & _).
  destruct (onNextImage_left_overscroll phone (-250) this)
    as (this' & Hrun & Hst & _); [cbn; lra | cbn; lra |].
  exists this, this'. auto.
Defined.

(** Two images of unknown size, two objects, and the size of the second
    arrives. *)
Lemma setSizeForImages_in_place_witness :
  exists this,
    shown phone [unsized; unsized] 0 = Ok this
    /\ InPlace.view
         (snd (InPlace.setSizeForImages [mkFetched (Fin 640) (Fin 480) (Fin 1)]
                 [0; 1]%nat [unsized; unsized]))
         [0; 1]%nat
       = fst (setSizeForImages [mkFetched (Fin 640) (Fin 480) (Fin 1)] this)
    /\ fst (setSizeForImages [mkFetched (Fin 640) (Fin 480) (Fin 1)] this)
       = [unsized; sized 640 480].
Proof.
  destruct (shown_ok phone [unsized; unsized] 0 unsized)
    as (this & Hshown & _ & _ & Himgs & _); [lia | reflexivity |].
  destruct (setSizeForImages_in_place [mkFetched (Fin 640) (Fin 480) (Fin 1)]
              [0; 1]%nat [unsized; unsized])
    as (_ & _ & _ & _ & Hsame & Htwice).
  destruct (Hsame this) as (Hview & _).
  - repeat constructor; cbn; intuition lia.
  - repeat constructor.
  - rewrite Himgs. reflexivity.
  - destruct (Htwice 0%nat (mkFetched (Fin 640) (Fin 480) (Fin 1)) unsized this)
      as (_ & Hrec); [cbn; lia | reflexivity | exact Himgs |].
    exists this. split; [exact Hshown |]. split; [exact Hview | exact Hrec].
Defined.


(** After the size of the only image arrived no image is without size. *)
Lemma setSizeForImages_fills_witness :
  exists this,
    shown phone [unsized] 0 = Ok this
    /\ getImagesWithoutSize (images (state this)) = [unsized]
    /\ getImagesWithoutSize
         (fst (setSizeForImages
                 [mkFetched (Fin 640) (Fin 480) (Fin (IZR 0))] this))
       = [].
Proof.
  destruct (shown_ok phone [unsized] 0 unsized)
    as (this & Hshown & _ & _ & Himgs & _); [lia | reflexivity |].
  exists this. split; [exact Hshown |]. split.
  - rewrite Himgs. reflexivity.
  - apply setSizeForImages_fills.
    + discriminate.
    + repeat constructor; cbn [fetchedWidth fetchedHeight];
        apply truthy_fin; lra.
    + intros n image Hn _. rewrite Himgs in Hn.
      destruct n as [| n]; [| destruct n; discriminate].
      change 0%nat with (Z.to_nat 0). rewrite sizeAt_own by lia.
      discriminate.
Defined.

(** Two fingers 5 apart on the portrait image at scale 1. *)
Lemma onGestureMove_keeps_zoom_in_range_witness :
  exists this this',
    shown phone [sized 100 200] 0 = Ok this
    /\ onGestureMove phone twoFingers still (onGestureStart twoFingers this)
       = Ok this'
    /\ zoomInRange (Fin 1) (imageScaleValue this').
Proof.
  destruct shown_portrait
    as (this & Hshown & Hr & Hs & Hv & _).
  destruct (onGestureMove_keeps_zoom_in_range phone twoFingers still
              (onGestureStart twoFingers this) _ _ Hr)
    as (this' & Hrun & _ & _ & _ & Hz).
  - exact finiteTouch_two_fingers.
  - exact finiteTouch_two_fingers.
  - apply le_fin. lra.
  - unfold onGestureStart. fields. rewrite Hs.
    apply zoomInRange_fin. exists 1. split; [reflexivity | lra].
  - unfold onGestureStart. fields. rewrite Hv.
    apply zoomInRange_fin. exists 1. split; [reflexivity | lra].
  - exists this, this'. auto.
Defined.

(** A flick on the portrait image at scale 1. *)
Lemma onGestureRelease_keeps_zoom_in_range_witness :
  exists this this',
    shown phone [sized 100 200] 0 = Ok this
    /\ onGestureRelease phone (Some twoFingers) flick this = Ok this'
    /\ imageScale (state this') = imageScaleValue this'
    /\ zoomInRange (Fin 1) (imageScaleValue this').
Proof.
  destruct shown_portrait
    as (this & Hshown & Hr & Hs & Hv & _).
  destruct (onGestureRelease_keeps_zoom_in_range phone (Some twoFingers)
              flick this _ _ Hr)
    as (this' & Hrun & _ & Hc & Hz).
  - apply le_fin. lra.
  - apply le_fin. lra.
  - rewrite Hv. apply zoomInRange_fin. exists 1. split; [reflexivity | lra].
  - exists this, this'. auto.
Defined.

(** A drag of 50 to the right and 120 down on a 200 by 100 image at its
    initial scale, released at rest. *)
Lemma release_landscape_snaps_witness :
  exists this this',
    shown phone [sized 200 100] 0 = Ok this
    /\ onGestureRelease phone (Some oneFinger) drag this = Ok this'
    /\ imageTranslate (state this')
       = {| tx := Fin ((400 - 200) / 2); ty := Fin ((800 - 100) / 2) |}
    /\ scrollEnabled (state this') = true.
Proof.
  destruct (shown_ok phone [sized 200 100] 0 (sized 200 100))
    as (this & Hshown & Hr & _ & _ & _ & _ & Hv & Ht & _);
    [lia | reflexivity |].
  assert (Htr : translate (getInitalParams phone (sized 200 100))
                = {| tx := Fin ((400 - 200) / 2);
                     ty := Fin ((800 - 100) / 2) |}).
  { unfold getInitalParams, sized. cbn [translate width height].
    now rewrite calculateInitalTranslate_fin. }
  destruct (release_landscape_snaps 400 800 200 100 (Some oneFinger) drag
              this)
    as (this' & Hrun & _ & _ & Hsnap & Hscroll); try lra.
  - exact Hr.
  - unfold releasedScale. rewrite isTap_drag. exact Hv.
  - rewrite Ht. change (mkWindow 400 800) with phone in Htr |- *.
    rewrite Htr. reflexivity.
  - rewrite Ht. change (mkWindow 400 800) with phone in Htr |- *.
    rewrite Htr. reflexivity.
  - exists this, this'. change (mkWindow 400 800) with phone in Hsnap.
    rewrite Htr in Hsnap. auto.
Defined.


(** A single tap on the portrait image, then the timer. *)
Lemma single_tap_then_timeout_witness :
  exists this this1,
    shown phone [sized 100 200] 0 = Ok this
    /\ tap phone this = Ok this1
    /\ doubleTapTimer this1 = true
    /\ doubleTapTimer (doubleTapTimeout this1) = false
    /\ panelsVisible (state (doubleTapTimeout this1)) = false
    /\ imageScaleValue (doubleTapTimeout this1) = Fin 1.
Proof.
  destruct shown_portrait
    as (this & Hshown & Hr & Hs & Hv & _ & _ & _ & _ & _ & Ht & _).
  destruct (shown_rest _ _ _ _ Hshown) as (_ & Hpan & _).
  destruct (single_tap_then_timeout phone this _ _ 1 Hr Hs Hv Ht)
    as (this1 & Hrun & Ht1 & _ & Ht2 & Hp2 & _ & _ & Hv2 & _).
  rewrite Hpan in Hp2. cbn [negb] in Hp2.
  exists this, this1. repeat split; assumption.
Defined.

(** A double tap on the portrait image at its initial scale: it zooms and
    hides the panels. *)
Lemma double_tap_sets_panels_witness :
  exists this this1 this2,
    shown phone [sized 100 200] 0 = Ok this
    /\ tap phone this = Ok this1
    /\ onGestureRelease phone (Some {| touches := [] |}) still this1
       = Ok this2
    /\ imageScale (state this2) = Fin (1 * 3)
    /\ panelsVisible (state this2) = false.
Proof.
  destruct shown_portrait
    as (this & Hshown & Hr & Hs & Hv & _ & _ & _ & _ & _ & Ht & _).
  destruct (tap_runs phone this _ _ 1 Hr Hs Hv)
    as (this1 & Hrun1 & Hr1 & Ht1 & Hs1 & Hv1 & _).
  rewrite Ht in Ht1, Hs1, Hv1. cbn [negb] in Ht1.
  destruct (double_tap_sets_panels phone (Some {| touches := [] |}) still
              this1 _ _ Hr1)
    as (this2 & Hrun2 & Hs2 & Hp2 & _).
  - unfold isTap, still. cbn [dx dy].
    now rewrite truthy_zero, Hs1, Hv1, scalesAreEqual_refl.
  - exact Ht1.
  - assert (Hzoom : doubleTapScale (Fin 1) (Fin 1) = Fin (1 * 3)).
    { unfold doubleTapScale. now rewrite scalesAreEqual_refl. }
    rewrite Hv1 in Hs2. cbn [scale] in Hs2, Hp2. rewrite Hzoom in Hs2.
    rewrite Hs2 in Hp2.
    exists this, this1, this2. split; [exact Hshown |].
    split; [exact Hrun1 |]. split; [exact Hrun2 |]. split; [exact Hs2 |].
    rewrite Hp2. apply Reqb_false. lra.
Defined.

(** A one-finger drag of 120 on the portrait image. *)
Lemma onGestureMove_keeps_opacity_in_range_witness :
  exists this this',
    shown phone [sized 100 200] 0 = Ok this
    /\ onGestureMove phone {| touches := [] |} flick this = Ok this'
    /\ opacityInRange (modalBackgroundOpacity this').
Proof.
  destruct shown_portrait as (this & Hshown & Hr & _).
  destruct (shown_rest _ _ _ _ Hshown) as (Ho & _).
  destruct (onGestureMove_keeps_opacity_in_range phone {| touches := [] |}
              flick this _ _ Hr)
    as (this' & Hrun & Hin).
  - reflexivity.
  - rewrite Ho. split; apply le_fin; lra.
  - exists this, this'. auto.
Defined.

(** The portrait image dragged 120 down with one finger, which dims the
    backdrop to an opacity of 0.36, and released at rest. *)
Lemma onGestureRelease_resets_opacity_witness :
  exists this this1 this2,
    shown phone [sized 100 200] 0 = Ok this
    /\ onGestureMove phone oneFinger drag this = Ok this1
    /\ modalBackgroundOpacity this1 = Fin (Rabs (120 * (3 / 1000)))
    /\ (modalBackgroundOpacity this1 >? Fin 0)%num = true
    /\ onGestureRelease phone (Some oneFinger) drag this1 = Ok this2
    /\ modalBackgroundOpacity this2 = Fin 0.
Proof.
  destruct shown_portrait
    as (this & Hshown & Hr & Hs & _ & _ & _ & _ & _ & Hsc & _).
  destruct (onGestureMove_effects phone oneFinger drag this _ _ Hsc Hr)
    as (this1 & Hrun1 & Hr1 & _ & _ & _ & _ & _ & Hop).
  rewrite Hs in Hop. cbn [scale sized height to_number drag dy] in Hop.
  rewrite scalesAreEqual_refl in Hop.
  assert (Hlow : (Fin 200 * Fin 1 <? screenHeight phone)%num = true).
  { apply Rltb_true. cbn. lra. }
  assert (Hdim : Rabs (120 * (3 / 1000)) = 120 * (3 / 1000)).
  { apply Rabs_pos_eq. lra. }
  assert (Hone : (abs (Fin 120 * BACKGROUND_OPACITY_MULTIPLIER) >? Fin 1)%num
                 = false).
  { apply Rltb_false. rewrite Hdim. lra. }
  rewrite Hlow, Hone in Hop. cbn [andb] in Hop.
  change (abs (Fin 120 * BACKGROUND_OPACITY_MULTIPLIER)%num)
    with (Fin (Rabs (120 * (3 / 1000)))) in Hop.
  destruct (onGestureRelease_resets_opacity phone (Some oneFinger) drag
              this1 _ _ Hr1)
    as (this2 & Hrun2 & Hz & _).
  - rewrite Hop. apply le_fin. rewrite Hdim. lra.
  - apply closes_drag.
  - exists this, this1, this2. rewrite Hop.
    repeat split; auto. apply Rltb_true. rewrite Hdim. lra.
Defined.

(** A one-finger drag on the portrait image at its initial scale. *)
Lemma onGestureMove_pan_witness :
  exists this this',
    shown phone [sized 100 200] 0 = Ok this
    /\ onGestureMove phone {| touches := [] |} flick this = Ok this'
    /\ tx (imageTranslateValue this') = tx (imageTranslateValue this)
    /\ imageScale (state this') = Fin 1.
Proof.
  destruct shown_portrait
    as (this & Hshown & Hr & Hs & _ & _ & _ & _ & _ & Hsc & _).
  destruct (onGestureMove_pan phone {| touches := [] |} flick this _ _ Hr)
    as (_ & Hmove).
  destruct (Hmove Hsc) as (this' & Hrun & _ & Hkeep & _ & Hscale & _).
  exists this, this'. split; [exact Hshown |]. split; [exact Hrun |].
  split.
  - apply Hkeep. rewrite Hs. cbn [scale]. apply strict_eq_refl_fin.
  - congruence.
Defined.

(** Fingers 5 apart, then 10 apart, from an initial distance of 5. *)
Lemma pinch_scale_monotone_witness :
  (clampScale (Fin 1) (getScale (Fin 5) (Fin 5) * Fin 1)
   <=? clampScale (Fin 1) (getScale (Fin 10) (Fin 5) * Fin 1))%num = true.
Proof. apply pinch_scale_monotone; lra. Defined.
